(** * shaka.util.ManifestFilter: codec summaries, summary sets and the two
      codec-compatibility filters of [lib/util/manifest_filter.js].

    The JavaScript objects are embedded with explicit state passing: a
    function that mutates [manifest] in place returns the manifest as it is
    left behind.  A period is identified by its position in
    [manifest.periods]. *)

From Stdlib Require Import Ascii String.
From stdpp Require Import base option list strings.

Open Scope string_scope.
Open Scope list_scope.

(** ** Strings

    The code splits strings on ['.'] only.  A JavaScript string is a sequence
    of code units; splitting on a single unit is the same computation on any
    unit type, so strings are Rocq strings. *)

Module Str.

(** [s.split(sep)] for a one-character separator: never an empty array, the
    empty string splits into [[""]]. *)
Fixpoint split (sep : ascii) (s : string) : list string :=
  match s with
  | EmptyString => [EmptyString]
  | String c s' =>
      if Ascii.eqb c sep then EmptyString :: split sep s'
      else match split sep s' with
           | [] => [String c EmptyString]
           | piece :: pieces => String c piece :: pieces
           end
  end.

(** The words of the specification: the substring up to, and excluding, the
    first occurrence of [sep]; the whole string when there is none. *)
Fixpoint before_first (sep : ascii) (s : string) : string :=
  match s with
  | EmptyString => EmptyString
  | String c s' =>
      if Ascii.eqb c sep then EmptyString else String c (before_first sep s')
  end.

(** [sep] occurs in [s]. *)
Fixpoint occurs (sep : ascii) (s : string) : bool :=
  match s with
  | EmptyString => false
  | String c s' => Ascii.eqb c sep || occurs sep s'
  end.

End Str.

(** ** The extern record types

    [shaka.extern.Stream], [Variant], [Period] and [Manifest] are declared
    outside this file.  The fields the filters read are spelled out; all the
    others are carried in one component of an arbitrary type each, so that
    what a filter leaves untouched can be stated. *)

Module Extern.

Section Types.
Variables StreamRest VariantRest PeriodRest ManifestRest : Type.

Record Stream : Type := mkStream {
  mimeType : string;
  codecs : string;
  streamRest : StreamRest
}.

(** [audio] and [video] are a stream or [null]. *)
Record Variant : Type := mkVariant {
  audio : option Stream;
  video : option Stream;
  variantRest : VariantRest
}.

Record Period : Type := mkPeriod {
  variants : list Variant;
  periodRest : PeriodRest
}.

Record Manifest : Type := mkManifest {
  periods : list Period;
  manifestRest : ManifestRest
}.

(** [period.variants = vs] *)
Definition setVariants (period : Period) (vs : list Variant) : Period :=
  {| variants := vs; periodRest := periodRest period |}.

(** the state of [manifest] once its periods are [ps] *)
Definition setPeriods (manifest : Manifest) (ps : list Period) : Manifest :=
  {| periods := ps; manifestRest := manifestRest manifest |}.
End Types.

Arguments mkStream {StreamRest} _ _ _.
Arguments mimeType {StreamRest} _.
Arguments codecs {StreamRest} _.
Arguments streamRest {StreamRest} _.
Arguments mkVariant {StreamRest VariantRest} _ _ _.
Arguments audio {StreamRest VariantRest} _.
Arguments video {StreamRest VariantRest} _.
Arguments variantRest {StreamRest VariantRest} _.
Arguments mkPeriod {StreamRest VariantRest PeriodRest} _ _.
Arguments variants {StreamRest VariantRest PeriodRest} _.
Arguments periodRest {StreamRest VariantRest PeriodRest} _.
Arguments mkManifest {StreamRest VariantRest PeriodRest ManifestRest} _ _.
Arguments periods {StreamRest VariantRest PeriodRest ManifestRest} _.
Arguments manifestRest {StreamRest VariantRest PeriodRest ManifestRest} _.
Arguments setVariants {StreamRest VariantRest PeriodRest} _ _.
Arguments setPeriods {StreamRest VariantRest PeriodRest ManifestRest} _ _.

End Extern.
Import Extern.

(** ** VariantCodecSummary *)

Module VariantCodecSummary.

(** The four private fields, each a string or [null].  [None] stands for
    [null] and for [undefined] alike: [equals] compares with [==], which does
    not tell the two apart. *)
Record t : Type := mk {
  audioMime_ : option string;
  audioCodec_ : option string;
  videoMime_ : option string;
  videoCodec_ : option string
}.

(** [a == b] on values that are a string or [null]. *)
Definition loose_eq (a b : option string) : bool :=
  match a, b with
  | Some x, Some y => String.eqb x y
  | None, None => true
  | _, _ => false
  end.

Section Constructor.
Context {StreamRest VariantRest : Type}.

(** [new VariantCodecSummary(variant)] *)
Definition constructor (variant : Variant StreamRest VariantRest) : t :=
  let audio := audio variant in
  let video := video variant in
  {| audioMime_ := match audio with Some a => Some (mimeType a) | None => None end;
     audioCodec_ := match audio with
                    | Some a => Str.split "." (codecs a) !! 0%nat
                    | None => None
                    end;
     videoMime_ := match video with Some v => Some (mimeType v) | None => None end;
     videoCodec_ := match video with
                    | Some v => Str.split "." (codecs v) !! 0%nat
                    | None => None
                    end |}.
End Constructor.

(** [this.equals(other)] *)
Definition equals (this other : t) : bool :=
  loose_eq (audioMime_ this) (audioMime_ other) &&
  loose_eq (audioCodec_ this) (audioCodec_ other) &&
  loose_eq (videoMime_ this) (videoMime_ other) &&
  loose_eq (videoCodec_ this) (videoCodec_ other).

(** The words of the specification for one channel (audio or video) of two
    variants: both streams absent, or both present with the same mime type
    and the same codecs string up to the first ['.']. *)
Definition sameChannel {StreamRest : Type} (a b : option (Stream StreamRest)) : Prop :=
  match a, b with
  | None, None => True
  | Some x, Some y =>
      mimeType x = mimeType y /\
      Str.before_first "." (codecs x) = Str.before_first "." (codecs y)
  | _, _ => False
  end.

End VariantCodecSummary.

(** ** VariantCodecSummarySet *)

Module VariantCodecSummarySet.

(** The private array [all_]. *)
Record t : Type := mk { all_ : list VariantCodecSummary.t }.

(** [new VariantCodecSummarySet()] *)
Definition constructor : t := {| all_ := [] |}.

(** [this.contains(summary)]: [this.all_.some((x) => summary.equals(x))] *)
Definition contains (this : t) (summary : VariantCodecSummary.t) : bool :=
  existsb (fun x => VariantCodecSummary.equals summary x) (all_ this).

(** [this.add(summary)] *)
Definition add (this : t) (summary : VariantCodecSummary.t) : t :=
  if negb (contains this summary)
  then {| all_ := all_ this ++ [summary] |}
  else this.

(** [this.includeAll(other)] for [other] an object distinct from [this]:
    [other.all_] is not written while it is iterated. *)
Definition includeAll (this other : t) : t :=
  fold_left (fun this item => add this item) (all_ other) this.

(** [this.includeAll(this)]: the iterated array is the array [add] pushes
    to.  The array iterator is live: at each step it reads the current
    length, and stops at the first index past the end.  [fuel] bounds the
    number of iterations the model runs. *)
Fixpoint includeAll_self_from (fuel : nat) (i : nat) (this : t) : option t :=
  match all_ this !! i with
  | None => Some this
  | Some item =>
      match fuel with
      | O => None
      | S fuel' => includeAll_self_from fuel' (S i) (add this item)
      end
  end.

Definition includeAll_self (fuel : nat) (this : t) : option t :=
  includeAll_self_from fuel 0 this.

(** [this.onlyKeep(other)].  [other] may be [this]: the array is read, the
    field is assigned once the filtering is over. *)
Definition onlyKeep (this other : t) : t :=
  {| all_ := List.filter (fun x => contains other x) (all_ this) |}.

Section FromVariants.
Context {StreamRest VariantRest : Type}.

(** [VariantCodecSummarySet.fromVariants(variants)] *)
Definition fromVariants (variants : list (Variant StreamRest VariantRest)) : t :=
  fold_left (fun set variant => add set (VariantCodecSummary.constructor variant))
            variants constructor.
End FromVariants.

(** No two stored elements are equal. *)
Fixpoint distinct_list (l : list VariantCodecSummary.t) : bool :=
  match l with
  | [] => true
  | x :: l' =>
      negb (existsb (fun y => VariantCodecSummary.equals x y) l') && distinct_list l'
  end.

Definition distinct (this : t) : bool := distinct_list (all_ this).

(** Two sets with the same members. *)
Definition same_members (a b : t) : Prop :=
  forall x, contains a x = contains b x.

(** The sets a program can build: from the constructor and [fromVariants],
    by [add], [includeAll] and [onlyKeep]. *)
Inductive built : t -> Prop :=
| built_constructor : built constructor
| built_fromVariants {StreamRest VariantRest : Type}
    (variants : list (Variant StreamRest VariantRest)) :
    built (fromVariants variants)
| built_add this summary : built this -> built (add this summary)
| built_includeAll this other :
    built this -> built other -> built (includeAll this other)
| built_onlyKeep this other :
    built this -> built other -> built (onlyKeep this other).

End VariantCodecSummarySet.

(** ** ManifestFilter *)

Module ManifestFilter.

(** How a synchronous call completes. *)
Inductive Completion (A : Type) : Type :=
| Normal (a : A)
| AssertionFailure (message : string).
Arguments Normal {A} _.
Arguments AssertionFailure {A} _.

Definition bind {A B : Type} (c : Completion A) (k : A -> Completion B) : Completion B :=
  match c with
  | Normal a => k a
  | AssertionFailure message => AssertionFailure message
  end.

Notation "'do' x <- c ; k" := (bind c (fun x => k))
  (at level 10, x name, c at level 100, k at level 200, only parsing).

(** Modelled from the spec: [goog.asserts.assert], whose definition is not in
    this file.  The specification has the check reject a false condition
    loudly, as a precondition violation that is not recovered from: the call
    completes abruptly with the message. *)
Definition goog_asserts_assert (condition : bool) (message : string) : Completion unit :=
  if condition then Normal tt else AssertionFailure message.

(** How the promise of an asynchronous call settles. *)
Inductive Settled (Error : Type) : Type :=
| Resolved
| Rejected (reason : Error).
Arguments Resolved {Error}.
Arguments Rejected {Error} _.

(** What an asynchronous call leaves behind: how it settled, the object it
    worked on, the environment of the injected filter, and the invocations of
    the injected filter it made, oldest first, each with the period as it was
    handed over and the environment at that moment. *)
Record Run (Error Env Arg Obj : Type) : Type := mkRun {
  settlement : Settled Error;
  after : Obj;
  envAfter : Env;
  calls : list (Arg * Env)
}.
Arguments mkRun {Error Env Arg Obj} _ _ _ _.
Arguments settlement {Error Env Arg Obj} _.
Arguments after {Error Env Arg Obj} _.
Arguments envAfter {Error Env Arg Obj} _.
Arguments calls {Error Env Arg Obj} _.

Section Filters.
Context {StreamRest VariantRest PeriodRest ManifestRest : Type}.

Abbreviation Variant := (Extern.Variant StreamRest VariantRest).
Abbreviation Period := (Extern.Period StreamRest VariantRest PeriodRest).
Abbreviation Manifest := (Extern.Manifest StreamRest VariantRest PeriodRest ManifestRest).

(** The callback both filters give to [period.variants.filter]. *)
Definition compatible (set : VariantCodecSummarySet.t) (variant : Variant) : bool :=
  let summary := VariantCodecSummary.constructor variant in
  VariantCodecSummarySet.contains set summary.

(** [period.variants = period.variants.filter(...)] *)
Definition prune (set : VariantCodecSummarySet.t) (period : Period) : Period :=
  setVariants period (List.filter (compatible set) (variants period)).

(** The set of summaries of a period's variants. *)
Definition summariesOf (period : Period) : VariantCodecSummarySet.t :=
  VariantCodecSummarySet.fromVariants (variants period).

(** One iteration of the first loop of [filterByCommonCodecs], on the
    locals [common] and [first]. *)
Definition commonStep (locals : VariantCodecSummarySet.t * bool) (period : Period)
  : VariantCodecSummarySet.t * bool :=
  let '(common, first) := locals in
  let next := VariantCodecSummarySet.fromVariants (variants period) in
  if first
  then (VariantCodecSummarySet.includeAll common next, false)
  else (VariantCodecSummarySet.onlyKeep common next, first).

(** [common] when the first loop is over. *)
Definition commonSummaries (ps : list Period) : VariantCodecSummarySet.t :=
  fst (fold_left commonStep ps (VariantCodecSummarySet.constructor, true)).

Definition filterByCommonCodecs (manifest : Manifest) : Completion Manifest :=
  do _ <- goog_asserts_assert (0 <? length (periods manifest))%nat
                              "There should be at least be one period";
  let common := commonSummaries (periods manifest) in
  Normal (setPeriods manifest (map (prune common) (periods manifest))).

(** *** rollingFilter

    The injected [filter] is given one period.  It may rewrite that period,
    it may read and write state of its own (its environment), and its
    promise resolves or rejects. *)
Context {Error Env : Type}.

Definition PeriodFilter : Type := Period -> Env -> Settled Error * Period * Env.

(** The [if (previous) { ... }] of the loop body.  [None] is [null]; a
    set, also an empty one, is an object and so truthy. *)
Definition pruneIfPrevious (previous : option VariantCodecSummarySet.t)
         (period : Period) : Period :=
  match previous with
  | Some previous => prune previous period
  | None => period
  end.

(** The loop of [rollingFilter], from the local [previous] and over the
    periods still to visit. *)
Fixpoint rollingLoop (filter : PeriodFilter)
         (previous : option VariantCodecSummarySet.t)
         (ps : list Period) (env : Env) : Run Error Env Period (list Period) :=
  match ps with
  | [] => mkRun Resolved [] env []
  | period :: later =>
      let period := pruneIfPrevious previous period in
      match filter period env with
      | (Rejected reason, filtered, env') =>
          mkRun (Rejected reason) (filtered :: later) env' [(period, env)]
      | (Resolved, filtered, env') =>
          let previous :=
            Some (VariantCodecSummarySet.fromVariants (variants filtered)) in
          let rest := rollingLoop filter previous later env' in
          mkRun (settlement rest) (filtered :: after rest) (envAfter rest)
                ((period, env) :: calls rest)
      end
  end.

Definition rollingFilter (manifest : Manifest) (filter : PeriodFilter) (env : Env)
  : Run Error Env Period Manifest :=
  let previous := None in
  let loop := rollingLoop filter previous (periods manifest) env in
  mkRun (settlement loop) (setPeriods manifest (after loop)) (envAfter loop)
        (calls loop).

(** [after] is [before] with its variant list narrowed to a subsequence:
    same other fields, the variants kept are variants of [before], in
    their order. *)
Definition narrowed (before after : Period) : Prop :=
  periodRest after = periodRest before /\
  variants after `sublist_of` variants before.

(** The injected filter never adds a variant to the period it is given. *)
Definition neverAdds (filter : PeriodFilter) : Prop :=
  forall period env variant,
    variant ∈ variants (filter period env).1.2 -> variant ∈ variants period.

(** The injected filter only narrows the variant list of its period. *)
Definition onlyNarrows (filter : PeriodFilter) : Prop :=
  forall period env, narrowed period (filter period env).1.2.

(** The injected filter resolves and leaves its period as it is. *)
Definition leavesAlone (filter : PeriodFilter) : Prop :=
  forall period env, (filter period env).1 = (Resolved, period).
End Filters.

(** *** The filters by an outside test

    [shaka.util.StreamUtils.meetsRestrictions],
    [shaka.media.MediaSourceEngine.isStreamSupported] and
    [drmEngine.supportsVariant] are defined outside this file, as are the
    types of restrictions, of the hardware resolution and of the DRM engine.
    They are taken as they are used here: tests that answer with a boolean
    and write nothing. *)

Section PredicateFilters.
Context {StreamRest VariantRest PeriodRest ManifestRest : Type}.
Context {Restrictions MaxHwResolution DrmEngine : Type}.

Abbreviation PVariant := (Extern.Variant StreamRest VariantRest).
Abbreviation PPeriod := (Extern.Period StreamRest VariantRest PeriodRest).
Abbreviation PManifest :=
  (Extern.Manifest StreamRest VariantRest PeriodRest ManifestRest).

Variable meetsRestrictions : PVariant -> Restrictions -> MaxHwResolution -> bool.
Variable isStreamSupported : Stream StreamRest -> bool.
Variable supportsVariant : DrmEngine -> PVariant -> bool.

(** The loop the three filters share:
    [for (const period of manifest.periods)
       period.variants = period.variants.filter(callback)]. *)
Definition filterVariants (callback : PVariant -> bool) (manifest : PManifest)
  : PManifest :=
  setPeriods manifest
    (map (fun period => setVariants period (List.filter callback (variants period)))
         (periods manifest)).

Definition filterByRestrictions (manifest : PManifest)
           (restrictions : Restrictions) (maxHwResolution : MaxHwResolution)
  : PManifest :=
  filterVariants
    (fun variant => meetsRestrictions variant restrictions maxHwResolution)
    manifest.

(** The callback of [filterByMediaSourceSupport], on its local [supported]. *)
Definition mediaSourceSupported (variant : PVariant) : bool :=
  let supported := true in
  let supported :=
    match audio variant with
    | Some audio => supported && isStreamSupported audio
    | None => supported
    end in
  let supported :=
    match video variant with
    | Some video => supported && isStreamSupported video
    | None => supported
    end in
  supported.

Definition filterByMediaSourceSupport (manifest : PManifest) : PManifest :=
  filterVariants mediaSourceSupported manifest.

Definition filterByDrmSupport (manifest : PManifest) (drmEngine : DrmEngine)
  : PManifest :=
  filterVariants (fun variant => supportsVariant drmEngine variant) manifest.
End PredicateFilters.

End ManifestFilter.

(** ** Sample presentations

    Streams, variants and periods of the kind the filters meet, with the
    fields the filters do not read left empty; and three injected filters. *)

Module Sample.
Import ManifestFilter.

Definition stream (mime codecs : string) : Stream unit := mkStream mime codecs tt.

(** Two H.264 profiles over the same AAC audio, and a WebM pairing. *)
Definition avcBaseline : Variant unit unit :=
  mkVariant (Some (stream "audio/mp4" "mp4a.40.2"))
            (Some (stream "video/mp4" "avc1.42E01E")) tt.
Definition avcMain : Variant unit unit :=
  mkVariant (Some (stream "audio/mp4" "mp4a.40.2"))
            (Some (stream "video/mp4" "avc1.4D401F")) tt.
Definition vp9 : Variant unit unit :=
  mkVariant (Some (stream "audio/webm" "opus"))
            (Some (stream "video/webm" "vp09.00.10.08")) tt.
Definition audioOnly : Variant unit unit :=
  mkVariant (Some (stream "audio/mp4" "mp4a.40.2")) None tt.

Definition period (vs : list (Variant unit unit)) : Period unit unit unit :=
  mkPeriod vs tt.

Definition manifest (ps : list (Period unit unit unit)) : Manifest unit unit unit unit :=
  mkManifest ps tt.

(** Same codec bases in both periods, different profiles. *)
Definition sameBases : Manifest unit unit unit unit :=
  manifest [period [avcBaseline]; period [avcMain]].

(** No summary of the first period occurs in the second. *)
Definition disjoint : Manifest unit unit unit unit :=
  manifest [period [avcBaseline]; period [vp9]].

(** P1 and P2 share a summary, P2 and P3 share none, P1 and P3 share one. *)
Definition shrinking : Manifest unit unit unit unit :=
  manifest [period [avcBaseline; vp9]; period [avcMain]; period [vp9; audioOnly]].

(** The second period shares no summary with the first, the third shares
    one with the first. *)
Definition cascading : Manifest unit unit unit unit :=
  manifest [period [avcBaseline]; period [vp9]; period [avcBaseline; avcMain]].

(** One summary occurs in both periods, beside one that occurs in one
    only. *)
Definition mixed : Manifest unit unit unit unit :=
  manifest [period [avcBaseline; vp9]; period [avcMain; audioOnly]].

(** A test of streams from outside: MP4 only. *)
Definition mp4Only (s : Stream unit) : bool :=
  String.eqb (mimeType s) "audio/mp4" || String.eqb (mimeType s) "video/mp4".

(** The second period has a variant with no counterpart in the first. *)
Definition pruned : Manifest unit unit unit unit :=
  manifest [period [avcBaseline]; period [avcMain; vp9]; period [vp9]].

(** An injected filter that resolves and removes nothing. *)
Definition keepAll : @PeriodFilter unit unit unit string nat :=
  fun period calls => (Resolved, period, S calls).

(** An injected filter that removes every variant. *)
Definition dropAll : @PeriodFilter unit unit unit string nat :=
  fun period calls => (Resolved, setVariants period [], S calls).

(** An injected filter whose second call rejects; it counts its calls in its
    environment. *)
Definition failSecond : @PeriodFilter unit unit unit string nat :=
  fun period calls =>
    (if (calls =? 1)%nat then Rejected "unsupported" else Resolved, period, S calls).

End Sample.

(** * Properties *)

(** ** Splitting at the first dot *)

Section StrFacts.
Variable sep : ascii.

(** Element 0 of the split is the text before the first separator. *)
Lemma split_first s : Str.split sep s !! 0%nat = Some (Str.before_first sep s).
Proof.
  induction s as [|c s IH]; simpl; [reflexivity|].
  destruct (Ascii.eqb c sep); [reflexivity|].
  destruct (Str.split sep s) as [|piece pieces]; simpl in *.
  - discriminate.
  - congruence.
Qed.

Lemma before_first_free s : Str.occurs sep (Str.before_first sep s) = false.
Proof.
  induction s as [|c s IH]; simpl; [reflexivity|].
  destruct (Ascii.eqb c sep) eqn:E; simpl; [reflexivity|].
  rewrite E. exact IH.
Qed.

(** The string is its base, then nothing or a separator and the rest. *)
Lemma before_first_cut s :
  s = Str.before_first sep s \/
  exists tail, s = Str.before_first sep s +:+ String sep tail.
Proof.
  induction s as [|c s IH]; simpl; [left; reflexivity|].
  destruct (Ascii.eqb c sep) eqn:E.
  - apply Ascii.eqb_eq in E. subst c. right. exists s. reflexivity.
  - destruct IH as [IH|[tail IH]].
    + left. congruence.
    + right. exists tail.
      change (String c s = String c (Str.before_first sep s +:+ String sep tail)).
      f_equal. exact IH.
Qed.

Lemma before_first_whole s : Str.occurs sep s = false -> Str.before_first sep s = s.
Proof.
  induction s as [|c s IH]; simpl; [reflexivity|].
  destruct (Ascii.eqb c sep); simpl; [discriminate|].
  intros H. rewrite IH; auto.
Qed.

(** Whatever follows the first separator is ignored. *)
Lemma before_first_app base tail :
  Str.occurs sep base = false ->
  Str.before_first sep (base +:+ String sep tail) = base.
Proof.
  induction base as [|c base IH]; simpl.
  - intros _. rewrite Ascii.eqb_refl. reflexivity.
  - destruct (Ascii.eqb c sep); simpl; [discriminate|].
    intros H. rewrite IH; auto.
Qed.
End StrFacts.

(** ** VariantCodecSummary *)

Section SummaryFacts.
Import VariantCodecSummary.

Lemma loose_eq_true a b : loose_eq a b = true <-> a = b.
Proof.
  destruct a as [x|], b as [y|]; simpl; split; try congruence; try discriminate.
  - intros H. apply String.eqb_eq in H. congruence.
  - intros H. apply String.eqb_eq. congruence.
Qed.

Lemma equals_true a b : equals a b = true <-> a = b.
Proof.
  unfold equals. rewrite !andb_true_iff, !loose_eq_true.
  destruct a, b; simpl. split.
  - intros [[[-> ->] ->] ->]. reflexivity.
  - intros H. injection H as -> -> -> ->. auto.
Qed.

Lemma equals_refl a : equals a a = true.
Proof. apply equals_true. reflexivity. Qed.

Lemma equals_sym a b : equals a b = equals b a.
Proof.
  destruct (equals a b) eqn:E1, (equals b a) eqn:E2; try reflexivity.
  - apply equals_true in E1. subst. rewrite equals_refl in E2. discriminate.
  - apply equals_true in E2. subst. rewrite equals_refl in E1. discriminate.
Qed.

Lemma equals_trans a b c : equals a b = true -> equals b c = true -> equals a c = true.
Proof. rewrite !equals_true. congruence. Qed.

Context {StreamRest VariantRest : Type}.
Implicit Types v : Variant StreamRest VariantRest.

(** The fields of a summary, in the specification's words. *)
Lemma constructor_fields v :
  constructor v =
  {| audioMime_ := mimeType <$> audio v;
     audioCodec_ := (fun s => Str.before_first "." (codecs s)) <$> audio v;
     videoMime_ := mimeType <$> video v;
     videoCodec_ := (fun s => Str.before_first "." (codecs s)) <$> video v |}.
Proof.
  unfold constructor.
  destruct (audio v), (video v); simpl; rewrite ?split_first; reflexivity.
Qed.

Lemma sameChannel_fields (a b : option (Stream StreamRest)) :
  sameChannel a b <->
  mimeType <$> a = mimeType <$> b /\
  (fun s => Str.before_first "." (codecs s)) <$> a =
  (fun s => Str.before_first "." (codecs s)) <$> b.
Proof.
  destruct a as [x|], b as [y|]; simpl; split.
  - intros [-> ->]. auto.
  - intros [H1 H2]. split; congruence.
  - intros [].
  - intros [H _]. discriminate.
  - intros [].
  - intros [H _]. discriminate.
  - auto.
  - auto.
Qed.

Lemma equals_constructor v1 v2 :
  equals (constructor v1) (constructor v2) = true <->
  sameChannel (audio v1) (audio v2) /\ sameChannel (video v1) (video v2).
Proof.
  rewrite equals_true, !constructor_fields, !sameChannel_fields. split.
  - intros H. injection H as H1 H2 H3 H4. auto.
  - intros [[-> ->] [-> ->]]. reflexivity.
Qed.
End SummaryFacts.

(** ** VariantCodecSummarySet *)

Section SetFacts.
Import VariantCodecSummarySet.
Implicit Types (this other : t) (x y : VariantCodecSummary.t).

Lemma existsb_equals x l :
  existsb (fun y => VariantCodecSummary.equals x y) l = true <-> x ∈ l.
Proof.
  rewrite existsb_exists. split.
  - intros [y [Hin Heq]]. apply equals_true in Heq. subst y.
    apply list_elem_of_In. exact Hin.
  - intros Hin. exists x. split; [apply list_elem_of_In; exact Hin|].
    apply equals_refl.
Qed.

Lemma contains_true this x : contains this x = true <-> x ∈ all_ this.
Proof. apply existsb_equals. Qed.

Lemma contains_false this x : contains this x = false <-> x ∉ all_ this.
Proof.
  rewrite <- contains_true. destruct (contains this x); split; congruence.
Qed.

Lemma set_eq this other : all_ this = all_ other -> this = other.
Proof. destruct this, other; simpl; congruence. Qed.

Lemma distinct_NoDup this : distinct this = true <-> NoDup (all_ this).
Proof.
  unfold distinct. induction (all_ this) as [|x l IH]; simpl.
  - split; [constructor|reflexivity].
  - rewrite andb_true_iff, negb_true_iff, NoDup_cons, IH.
    rewrite <- existsb_equals.
    destruct (existsb (fun y => VariantCodecSummary.equals x y) l);
      intuition congruence.
Qed.

(** *** add *)

Lemma add_present this x : contains this x = true -> add this x = this.
Proof. intros H. unfold add. rewrite H. reflexivity. Qed.

Lemma add_absent this x :
  contains this x = false -> all_ (add this x) = all_ this ++ [x].
Proof. intros H. unfold add. rewrite H. reflexivity. Qed.

Lemma contains_add this x y :
  contains (add this x) y = contains this y || VariantCodecSummary.equals y x.
Proof.
  unfold add. destruct (contains this x) eqn:E; simpl.
  - destruct (VariantCodecSummary.equals y x) eqn:Eyx.
    + apply equals_true in Eyx. subst y. rewrite E. reflexivity.
    + rewrite orb_false_r. reflexivity.
  - unfold contains. simpl. rewrite existsb_app. simpl.
    rewrite orb_false_r. reflexivity.
Qed.

Lemma add_idempotent this x y :
  VariantCodecSummary.equals x y = true -> add (add this x) y = add this x.
Proof.
  intros H. apply add_present. rewrite contains_add, equals_sym, H.
  apply orb_true_r.
Qed.

Lemma distinct_add this x : distinct this = true -> distinct (add this x) = true.
Proof.
  rewrite !distinct_NoDup. intros H. unfold add.
  destruct (contains this x) eqn:E; simpl; [exact H|].
  apply contains_false in E. apply NoDup_app. split; [exact H|]. split.
  - intros y Hy Hx. apply list_elem_of_singleton in Hx. subst y. contradiction.
  - apply NoDup_singleton.
Qed.

(** *** includeAll *)

Lemma includeAll_fold (l : list VariantCodecSummary.t) this :
  forall y, contains (fold_left (fun this item => add this item) l this) y =
            contains this y || existsb (fun x => VariantCodecSummary.equals y x) l.
Proof.
  revert this. induction l as [|x l IH]; intros this y; simpl.
  - rewrite orb_false_r. reflexivity.
  - rewrite IH, contains_add, orb_assoc. reflexivity.
Qed.

Lemma contains_includeAll this other y :
  contains (includeAll this other) y = contains this y || contains other y.
Proof. apply includeAll_fold. Qed.

Lemma distinct_fold (l : list VariantCodecSummary.t) this :
  distinct this = true ->
  distinct (fold_left (fun this item => add this item) l this) = true.
Proof.
  revert this. induction l as [|x l IH]; intros this H; simpl; [exact H|].
  apply IH, distinct_add, H.
Qed.

Lemma distinct_includeAll this other :
  distinct this = true -> distinct (includeAll this other) = true.
Proof. apply distinct_fold. Qed.

Lemma fold_add_present (l : list VariantCodecSummary.t) this :
  (forall x, x ∈ l -> contains this x = true) ->
  fold_left (fun this item => add this item) l this = this.
Proof.
  induction l as [|x l IH]; intros H; simpl; [reflexivity|].
  rewrite add_present by (apply H; left).
  apply IH. intros y Hy. apply H. right. exact Hy.
Qed.

Lemma includeAll_same this : includeAll this this = this.
Proof. apply fold_add_present. intros x. apply contains_true. Qed.

(** The live iteration of a set over itself pushes nothing, and ends after
    one step per element. *)
Lemma includeAll_self_from_ends this fuel i :
  length (all_ this) <= fuel + i -> includeAll_self_from fuel i this = Some this.
Proof.
  revert i. induction fuel as [|fuel IH]; intros i Hlen; simpl.
  - rewrite lookup_ge_None_2 by lia. reflexivity.
  - destruct (all_ this !! i) as [item|] eqn:E; [|reflexivity].
    rewrite add_present.
    + apply IH. lia.
    + apply contains_true. eapply list_elem_of_lookup_2. exact E.
Qed.

(** *** onlyKeep *)

Lemma contains_onlyKeep this other y :
  contains (onlyKeep this other) y = contains this y && contains other y.
Proof.
  destruct (contains (onlyKeep this other) y) eqn:E; symmetry.
  - apply contains_true in E. simpl in E.
    apply list_elem_of_In, filter_In in E. destruct E as [E1 E2].
    rewrite E2, andb_true_r. apply contains_true, list_elem_of_In, E1.
  - apply andb_false_iff.
    destruct (contains this y) eqn:E1; [|left; reflexivity].
    destruct (contains other y) eqn:E2; [|right; reflexivity].
    exfalso. apply contains_false in E. apply E. simpl.
    apply list_elem_of_In, filter_In. split; [|exact E2].
    apply list_elem_of_In, contains_true, E1.
Qed.

Lemma distinct_onlyKeep this other :
  distinct this = true -> distinct (onlyKeep this other) = true.
Proof.
  rewrite !distinct_NoDup, !NoDup_ListNoDup. simpl. apply List.NoDup_filter.
Qed.

Lemma onlyKeep_same this : onlyKeep this this = this.
Proof.
  apply set_eq. simpl. apply forallb_filter_id, forallb_forall.
  intros x Hx. apply contains_true, list_elem_of_In, Hx.
Qed.

(** *** fromVariants *)

Context {StreamRest VariantRest : Type}.
Implicit Types (v : Variant StreamRest VariantRest).

Lemma fromVariants_fold (vs : list (Variant StreamRest VariantRest)) this :
  fold_left (fun set variant => add set (VariantCodecSummary.constructor variant))
            vs this =
  fold_left (fun this item => add this item)
            (map VariantCodecSummary.constructor vs) this.
Proof.
  revert this. induction vs as [|v vs IH]; intros this; simpl; [reflexivity|].
  apply IH.
Qed.

Lemma contains_fromVariants (vs : list (Variant StreamRest VariantRest)) y :
  contains (fromVariants vs) y =
  existsb (fun v => VariantCodecSummary.equals y (VariantCodecSummary.constructor v)) vs.
Proof.
  unfold fromVariants. rewrite fromVariants_fold, includeAll_fold. simpl.
  induction vs as [|v vs IH]; simpl; [reflexivity|]. rewrite IH. reflexivity.
Qed.

Lemma distinct_fromVariants (vs : list (Variant StreamRest VariantRest)) :
  distinct (fromVariants vs) = true.
Proof.
  unfold fromVariants. rewrite fromVariants_fold. apply distinct_fold. reflexivity.
Qed.

(** A variant is compatible with the set of its own list. *)
Lemma contains_fromVariants_own (vs : list (Variant StreamRest VariantRest)) v :
  v ∈ vs -> contains (fromVariants vs) (VariantCodecSummary.constructor v) = true.
Proof.
  intros H. rewrite contains_fromVariants. apply existsb_exists.
  exists v. split; [apply list_elem_of_In, H|apply equals_refl].
Qed.

End SetFacts.

(** ** filterByCommonCodecs *)

Section CommonCodecsFacts.
Import VariantCodecSummarySet ManifestFilter.
Context {StreamRest VariantRest PeriodRest ManifestRest : Type}.

Abbreviation Variant := (Extern.Variant StreamRest VariantRest).
Abbreviation Period := (Extern.Period StreamRest VariantRest PeriodRest).
Abbreviation Manifest :=
  (Extern.Manifest StreamRest VariantRest PeriodRest ManifestRest).

Lemma filter_sublist {A} (f : A -> bool) (l : list A) : List.filter f l `sublist_of` l.
Proof.
  induction l as [|a l IH]; simpl; [constructor|].
  destruct (f a); [apply sublist_skip|apply sublist_cons]; exact IH.
Qed.

Lemma filter_elem_of {A} (f : A -> bool) (l : list A) a :
  a ∈ List.filter f l <-> a ∈ l /\ f a = true.
Proof. rewrite !list_elem_of_In. apply filter_In. Qed.

(** Once [first] is false the loop only intersects. *)
Lemma commonStep_later (ps : list Period) common y :
  contains (fold_left commonStep ps (common, false)).1 y =
  contains common y && forallb (fun period => contains (summariesOf period) y) ps.
Proof.
  revert common. induction ps as [|period ps IH]; intros common; simpl.
  - rewrite andb_true_r. reflexivity.
  - rewrite IH, contains_onlyKeep, andb_assoc. reflexivity.
Qed.

Lemma contains_commonSummaries period (ps : list Period) y :
  contains (commonSummaries (period :: ps)) y =
  forallb (fun period => contains (summariesOf period) y) (period :: ps).
Proof.
  unfold commonSummaries. simpl.
  rewrite commonStep_later, contains_includeAll. reflexivity.
Qed.

Lemma filterByCommonCodecs_normal (manifest : Manifest) :
  periods manifest <> [] ->
  filterByCommonCodecs manifest =
  Normal (setPeriods manifest
            (map (prune (commonSummaries (periods manifest))) (periods manifest))).
Proof.
  intros H. unfold filterByCommonCodecs.
  destruct (periods manifest); [contradiction|]. reflexivity.
Qed.
End CommonCodecsFacts.

(** ** rollingFilter *)

Section RollingFacts.
Import VariantCodecSummarySet ManifestFilter.
Context {StreamRest VariantRest PeriodRest ManifestRest Error Env : Type}.

Abbreviation RPeriod := (Extern.Period StreamRest VariantRest PeriodRest).
Abbreviation RManifest :=
  (Extern.Manifest StreamRest VariantRest PeriodRest ManifestRest).
Abbreviation RFilter :=
  (@PeriodFilter StreamRest VariantRest PeriodRest Error Env).

Variable filter : RFilter.

Implicit Types (ps later : list RPeriod) (p q c : RPeriod) (env e : Env).
Implicit Types (previous : option VariantCodecSummarySet.t).

(** One iteration, then the loop on the periods that follow. *)
Ltac loop_step :=
  simpl;
  let Hcall := fresh "Hcall" in
  match goal with
  | |- context [filter (pruneIfPrevious ?previous ?p) ?env] =>
      destruct (filter (pruneIfPrevious previous p) env)
        as [[[|?reason] ?filtered] ?env'] eqn:Hcall
  end; simpl.

Lemma after_length ps previous env :
  length (after (rollingLoop filter previous ps env)) = length ps.
Proof.
  revert previous env. induction ps as [|p later IH]; intros previous env;
    [reflexivity|].
  loop_step; [rewrite IH|]; reflexivity.
Qed.

Lemma calls_length ps previous env :
  length (calls (rollingLoop filter previous ps env)) <= length ps.
Proof.
  revert previous env. induction ps as [|p later IH]; intros previous env;
    [reflexivity|].
  loop_step; [specialize (IH (Some (fromVariants (variants filtered))) env')|]; lia.
Qed.

Lemma resolved_calls_length ps previous env :
  settlement (rollingLoop filter previous ps env) = Resolved ->
  length (calls (rollingLoop filter previous ps env)) = length ps.
Proof.
  revert previous env. induction ps as [|p later IH]; intros previous env;
    [reflexivity|].
  loop_step; [|discriminate]. intros H. rewrite IH; auto.
Qed.

(** The loop hands the first period over as [previous] prunes it. *)
Lemma call_first p later previous env :
  calls (rollingLoop filter previous (p :: later) env) !! 0%nat =
  Some (pruneIfPrevious previous p, env).
Proof. loop_step; reflexivity. Qed.

(** A period that was handed over is left as the filter left it. *)
Lemma call_result ps previous env i c e :
  calls (rollingLoop filter previous ps env) !! i = Some (c, e) ->
  after (rollingLoop filter previous ps env) !! i = Some (filter c e).1.2.
Proof.
  revert previous env i. induction ps as [|p later IH]; intros previous env i;
    [discriminate|].
  loop_step; destruct i as [|i]; simpl; intros H.
  - injection H as <- <-. rewrite Hcall. reflexivity.
  - apply IH, H.
  - injection H as <- <-. rewrite Hcall. reflexivity.
  - discriminate.
Qed.

(** A call after the first follows a resolved call on the period before, and
    its argument is pruned against that period as the filter left it. *)
Lemma call_succ ps previous env i c' e' :
  calls (rollingLoop filter previous ps env) !! S i = Some (c', e') ->
  exists c e p' q,
    calls (rollingLoop filter previous ps env) !! i = Some (c, e) /\
    filter c e = (Resolved, q, e') /\
    ps !! S i = Some p' /\
    after (rollingLoop filter previous ps env) !! i = Some q /\
    c' = prune (summariesOf q) p'.
Proof.
  revert previous env i. induction ps as [|p later IH]; intros previous env i;
    [discriminate|].
  loop_step; [|discriminate].
  destruct i as [|i]; simpl; intros H.
  - destruct later as [|p' later]; [discriminate|].
    rewrite call_first in H. injection H as <- <-.
    exists (pruneIfPrevious previous p), env, p', filtered. auto.
  - apply IH in H. exact H.
Qed.

(** After a resolved call the loop goes on to the next period. *)
Lemma call_progress ps previous env i c e :
  calls (rollingLoop filter previous ps env) !! i = Some (c, e) ->
  (filter c e).1.1 = Resolved ->
  S i < length ps ->
  is_Some (calls (rollingLoop filter previous ps env) !! S i).
Proof.
  revert previous env i. induction ps as [|p later IH]; intros previous env i;
    [discriminate|].
  loop_step; destruct i as [|i]; simpl; intros H Hres Hlen.
  - destruct later as [|p' later]; [simpl in Hlen; lia|].
    rewrite call_first. eauto.
  - eapply IH; eauto. lia.
  - injection H as <- <-. rewrite Hcall in Hres. discriminate.
  - discriminate.
Qed.

(** A rejected call is the last one: the loop is left at once. *)
Lemma call_rejected ps previous env k c e reason :
  calls (rollingLoop filter previous ps env) !! k = Some (c, e) ->
  (filter c e).1.1 = Rejected reason ->
  settlement (rollingLoop filter previous ps env) = Rejected reason /\
  length (calls (rollingLoop filter previous ps env)) = S k /\
  envAfter (rollingLoop filter previous ps env) = (filter c e).2 /\
  drop (S k) (after (rollingLoop filter previous ps env)) = drop (S k) ps.
Proof.
  revert previous env k. induction ps as [|p later IH]; intros previous env k;
    [discriminate|].
  loop_step; destruct k as [|k]; simpl; intros H Hrej.
  - injection H as <- <-. rewrite Hcall in Hrej. discriminate.
  - destruct (IH _ _ _ H Hrej) as (H1 & H2 & H3 & H4). rewrite H2. auto.
  - injection H as <- <-. rewrite Hcall in Hrej |- *. simpl in *.
    injection Hrej as ->. rewrite drop_0. auto.
  - discriminate.
Qed.

(** Up to a period that was handed over, the run is the resolved run on the
    periods before it. *)
Lemma run_before_call ps previous env k c e :
  calls (rollingLoop filter previous ps env) !! k = Some (c, e) ->
  settlement (rollingLoop filter previous (take k ps) env) = Resolved /\
  after (rollingLoop filter previous (take k ps) env) =
    take k (after (rollingLoop filter previous ps env)) /\
  calls (rollingLoop filter previous (take k ps) env) =
    take k (calls (rollingLoop filter previous ps env)) /\
  envAfter (rollingLoop filter previous (take k ps) env) = e.
Proof.
  revert previous env k. induction ps as [|p later IH]; intros previous env k;
    [discriminate|].
  destruct k as [|k].
  - rewrite call_first. intros H. injection H as <- <-. simpl. auto.
  - simpl. destruct (filter _ _) as [[[|reason] filtered] env'] eqn:Hcall; simpl;
      [|discriminate].
    intros H. destruct (IH _ _ _ H) as (H1 & H2 & H3 & H4).
    rewrite H1, H2, H3, H4. auto.
Qed.

(** A period the loop did not reach is as it was. *)
Lemma not_reached ps previous env i :
  length (calls (rollingLoop filter previous ps env)) <= i ->
  after (rollingLoop filter previous ps env) !! i = ps !! i.
Proof.
  revert previous env i. induction ps as [|p later IH]; intros previous env i;
    [reflexivity|].
  loop_step; destruct i as [|i]; simpl; intros H; try lia.
  - apply IH. lia.
  - reflexivity.
Qed.
End RollingFacts.

(** * The specification's statements *)

Section SummaryClaims.
Import VariantCodecSummary.
Context {StreamRest VariantRest : Type}.

(** C5. [equals] on codec summaries is reflexive, symmetric and transitive,
    and holds exactly when the four fields agree.  The codec fields of the
    summary of a variant are its streams' codecs strings strictly before
    the first ['.'] (the whole string when it has none), which is what
    element 0 of the split at ['.'] holds; the mime fields are
    the streams' mime types, so what follows the first ['.'] is ignored: two
    variants are summarised alike exactly when, on each of audio and video,
    both streams are absent or both are present with the same mime type and
    the same codecs base.  In particular video codecs ["avc1.42E01E"] and
    ["avc1.4D401F"], with the same mime type and the same audio, give equal
    summaries.  A field is absent exactly when its stream is, and absent
    compares equal to absent only. *)
Theorem VariantCodecSummary_equality :
  (forall a, equals a a = true) /\
  (forall a b, equals a b = equals b a) /\
  (forall a b c, equals a b = true -> equals b c = true -> equals a c = true) /\
  (forall a b, equals a b = true <->
     audioMime_ a = audioMime_ b /\ audioCodec_ a = audioCodec_ b /\
     videoMime_ a = videoMime_ b /\ videoCodec_ a = videoCodec_ b) /\
  (forall v : Variant StreamRest VariantRest,
     audioMime_ (constructor v) = mimeType <$> audio v /\
     audioCodec_ (constructor v) =
       (fun s => Str.before_first "." (codecs s)) <$> audio v /\
     videoMime_ (constructor v) = mimeType <$> video v /\
     videoCodec_ (constructor v) =
       (fun s => Str.before_first "." (codecs s)) <$> video v) /\
  (forall s, Str.split "." s !! 0%nat = Some (Str.before_first "." s)) /\
  (forall s,
     Str.occurs "." (Str.before_first "." s) = false /\
     (s = Str.before_first "." s \/
      exists tail, s = Str.before_first "." s +:+ String "." tail)) /\
  (forall base tail,
     Str.occurs "." base = false ->
     Str.before_first "." (base +:+ String "." tail) = base /\
     Str.before_first "." base = base) /\
  (forall v1 v2 : Variant StreamRest VariantRest,
     equals (constructor v1) (constructor v2) = true <->
     sameChannel (audio v1) (audio v2) /\ sameChannel (video v1) (video v2)) /\
  (forall (a : option (Stream StreamRest)) mime r1 r2 (vr1 vr2 : VariantRest),
     equals (constructor (mkVariant a (Some (mkStream mime "avc1.42E01E" r1)) vr1))
            (constructor (mkVariant a (Some (mkStream mime "avc1.4D401F" r2)) vr2))
     = true) /\
  (forall v : Variant StreamRest VariantRest,
     (audio v = None <-> audioMime_ (constructor v) = None) /\
     (audio v = None <-> audioCodec_ (constructor v) = None) /\
     (video v = None <-> videoMime_ (constructor v) = None) /\
     (video v = None <-> videoCodec_ (constructor v) = None)) /\
  (forall x, loose_eq None x = true <-> x = None) /\
  (forall x, loose_eq x None = true <-> x = None).
Proof.
  split; [exact equals_refl|]. split; [exact equals_sym|].
  split; [exact equals_trans|]. split.
  { intros a b. rewrite equals_true. destruct a, b; simpl. split.
    - intros H. injection H as -> -> -> ->. auto.
    - intros (-> & -> & -> & ->). reflexivity. }
  split. { intros v. rewrite constructor_fields. simpl. auto. }
  split; [exact (split_first ".")|].
  split. { intros s. split; [apply before_first_free|apply before_first_cut]. }
  split.
  { intros base tail H. split; [apply before_first_app|apply before_first_whole]; exact H. }
  split; [exact equals_constructor|]. split.
  { intros a mime r1 r2 vr1 vr2. apply equals_constructor. simpl.
    split; [destruct a; simpl; auto|]. split; reflexivity. }
  split.
  { intros v. rewrite constructor_fields. simpl.
    destruct (audio v), (video v); simpl; repeat split; intros; congruence. }
  split; intros [x|]; simpl; split; congruence.
Qed.
End SummaryClaims.

Section SummaryWitness.
Import VariantCodecSummary Sample.

Lemma VariantCodecSummary_equality_witness :
  equals (constructor avcBaseline) (constructor avcMain) = true /\
  equals (constructor avcMain) (constructor (mkVariant (audio avcMain) (video avcMain) tt))
    = true /\
  equals (constructor avcBaseline)
         (constructor (mkVariant (audio avcMain) (video avcMain) tt)) = true.
Proof.
  assert (H1 : equals (constructor avcBaseline) (constructor avcMain) = true)
    by reflexivity.
  assert (H2 : equals (constructor avcMain)
                      (constructor (mkVariant (audio avcMain) (video avcMain) tt))
               = true) by reflexivity.
  split; [exact H1|]. split; [exact H2|].
  exact (proj1 (proj2 (proj2 (@VariantCodecSummary_equality unit unit))) _ _ _ H1 H2).
Defined.
End SummaryWitness.

Section SetClaims.
Import VariantCodecSummarySet.
Context {StreamRest VariantRest : Type}.

(** C6. For every set [A], [A.onlyKeep(A)] and [A.includeAll(A)] leave [A]
    as it was: the stored array, hence the membership, is unchanged.  For
    [includeAll] this is shown on the live iteration of [A.all_] while [add]
    may push to it, which ends after one step per element, and on the
    iteration of a distinct set with the same elements.  The set built from
    no variants contains no summary. *)
Theorem VariantCodecSummarySet_self_operations :
  (forall A, onlyKeep A A = A /\ same_members (onlyKeep A A) A) /\
  (forall A fuel, length (all_ A) <= fuel -> includeAll_self fuel A = Some A) /\
  (forall A, includeAll A A = A /\ same_members (includeAll A A) A) /\
  (forall x, contains (fromVariants (@nil (Variant StreamRest VariantRest))) x = false).
Proof.
  split; [|split; [|split]].
  - intros A. rewrite onlyKeep_same. split; [reflexivity|]. intros x. reflexivity.
  - intros A fuel H. apply includeAll_self_from_ends. lia.
  - intros A. rewrite includeAll_same. split; [reflexivity|]. intros x. reflexivity.
  - intros x. reflexivity.
Qed.

(** C7. No two stored elements of a set are equal.  [add] pushes exactly
    when no equal element is stored, so adding an equal summary a second
    time changes nothing; the empty set is distinct, [add], [includeAll],
    [onlyKeep] and [fromVariants] keep or establish distinctness, and so every
    set built with them is distinct: two positions holding equal summaries
    are the same position. *)
Theorem VariantCodecSummarySet_distinct :
  (forall this x, contains this x = true -> add this x = this) /\
  (forall this x, contains this x = false -> all_ (add this x) = all_ this ++ [x]) /\
  (forall this x y,
     VariantCodecSummary.equals x y = true -> add (add this x) y = add this x) /\
  distinct constructor = true /\
  (forall this x, distinct this = true -> distinct (add this x) = true) /\
  (forall this other, distinct this = true -> distinct (includeAll this other) = true) /\
  (forall this other, distinct this = true -> distinct (onlyKeep this other) = true) /\
  (forall vs : list (Variant StreamRest VariantRest), distinct (fromVariants vs) = true) /\
  (forall this, built this -> distinct this = true) /\
  (forall this, distinct this = true ->
     forall i j x y, all_ this !! i = Some x -> all_ this !! j = Some y ->
                     VariantCodecSummary.equals x y = true -> i = j).
Proof.
  split; [exact add_present|]. split; [exact add_absent|].
  split; [exact add_idempotent|]. split; [reflexivity|].
  split; [exact distinct_add|]. split; [exact distinct_includeAll|].
  split; [exact distinct_onlyKeep|]. split; [exact distinct_fromVariants|].
  split.
  - intros this H. induction H.
    + reflexivity.
    + apply distinct_fromVariants.
    + apply distinct_add. assumption.
    + apply distinct_includeAll. assumption.
    + apply distinct_onlyKeep. assumption.
  - intros this H i j x y Hi Hj Heq. apply equals_true in Heq. subst y.
    apply distinct_NoDup in H. eapply NoDup_lookup; eauto.
Qed.
End SetClaims.

Section SetWitness.
Import VariantCodecSummarySet Sample.

Lemma VariantCodecSummarySet_self_operations_witness :
  length (all_ (fromVariants [avcBaseline; vp9; avcMain])) <= 2 /\
  includeAll_self 2 (fromVariants [avcBaseline; vp9; avcMain]) =
  Some (fromVariants [avcBaseline; vp9; avcMain]).
Proof.
  split; [vm_compute; lia|].
  apply (proj1 (proj2 (@VariantCodecSummarySet_self_operations unit unit))).
  vm_compute. lia.
Defined.

Lemma VariantCodecSummarySet_distinct_witness :
  distinct (fromVariants [avcBaseline; vp9]) = true /\
  distinct (add (fromVariants [avcBaseline; vp9])
                (VariantCodecSummary.constructor avcMain)) = true.
Proof.
  split; [reflexivity|].
  apply (proj1 (proj2 (proj2 (proj2 (proj2
           (@VariantCodecSummarySet_distinct unit unit)))))).
  reflexivity.
Defined.
End SetWitness.

Section CommonCodecsClaims.
Import VariantCodecSummarySet ManifestFilter.
Context {StreamRest VariantRest PeriodRest ManifestRest : Type}.
Implicit Types manifest : Extern.Manifest StreamRest VariantRest PeriodRest ManifestRest.

(** A summary is in the set of a period exactly when a variant of the period
    has an equal summary. *)
Lemma contains_summariesOf (P : Extern.Period StreamRest VariantRest PeriodRest) y :
  contains (summariesOf P) y = true <->
  exists w, w ∈ variants P /\
            VariantCodecSummary.equals y (VariantCodecSummary.constructor w) = true.
Proof.
  unfold summariesOf. rewrite contains_fromVariants, existsb_exists.
  split; intros [w [H1 H2]]; exists w; split; auto; apply list_elem_of_In; exact H1.
Qed.

(** C1. On a manifest with at least one period [filterByCommonCodecs]
    returns, and leaves in each period [Pi] exactly the subsequence of the
    variants of [Pi] whose summary is contained in the summary set of every
    period of the manifest as it was given (that of [Pi] among them, which
    contains the summary of every variant of [Pi]): a variant is in the new
    list if and only if it was in the old one and, in every period, some
    variant has an equal summary. *)
Theorem filterByCommonCodecs_keeps_common manifest :
  periods manifest <> [] ->
  exists manifest',
    filterByCommonCodecs manifest = Normal manifest' /\
    length (periods manifest') = length (periods manifest) /\
    forall i Pi, periods manifest !! i = Some Pi ->
      exists Pi',
        periods manifest' !! i = Some Pi' /\
        variants Pi' =
          List.filter
            (fun v => forallb (fun P => contains (summariesOf P)
                                          (VariantCodecSummary.constructor v))
                              (periods manifest))
            (variants Pi) /\
        (forall v, v ∈ variants Pi ->
           contains (summariesOf Pi) (VariantCodecSummary.constructor v) = true) /\
        (forall v, v ∈ variants Pi' <->
           v ∈ variants Pi /\
           forall P, P ∈ periods manifest ->
             contains (summariesOf P) (VariantCodecSummary.constructor v) = true) /\
        (forall v, v ∈ variants Pi' <->
           v ∈ variants Pi /\
           forall P, P ∈ periods manifest ->
             exists w, w ∈ variants P /\
               VariantCodecSummary.equals (VariantCodecSummary.constructor v)
                                          (VariantCodecSummary.constructor w) = true).
Proof.
  intros Hne. rewrite filterByCommonCodecs_normal by exact Hne.
  eexists. split; [reflexivity|]. simpl. split; [apply length_map|].
  intros i Pi Hi. exists (prune (commonSummaries (periods manifest)) Pi).
  split; [rewrite list_lookup_fmap, Hi; reflexivity|].
  assert (Hvs : variants (prune (commonSummaries (periods manifest)) Pi) =
                List.filter
                  (fun v => forallb (fun P => contains (summariesOf P)
                                          (VariantCodecSummary.constructor v))
                                    (periods manifest))
                  (variants Pi)).
  { simpl. apply filter_ext. intros v. unfold compatible.
    destruct (periods manifest) as [|P0 ps]; [contradiction|].
    apply contains_commonSummaries. }
  assert (Hin : forall v,
             v ∈ variants (prune (commonSummaries (periods manifest)) Pi) <->
             v ∈ variants Pi /\
             forall P, P ∈ periods manifest ->
               contains (summariesOf P) (VariantCodecSummary.constructor v) = true).
  { intros v. rewrite Hvs, filter_elem_of, forallb_forall.
    split; intros [H1 H2]; split; auto; intros P HP; apply H2;
      apply list_elem_of_In; exact HP. }
  split; [exact Hvs|]. split; [intros v; apply contains_fromVariants_own|].
  split; [exact Hin|].
  intros v. rewrite Hin. split; intros [H1 H2]; split; auto; intros P HP;
    apply contains_summariesOf, H2, HP.
Qed.

(** C8. [filterByCommonCodecs] on a manifest without periods fails the
    assertion, with its message, and nothing else of the function runs; on
    a manifest with at least one period the assertion holds and the function
    completes normally. *)
Theorem filterByCommonCodecs_precondition manifest :
  (periods manifest = [] ->
   filterByCommonCodecs manifest =
   AssertionFailure "There should be at least be one period") /\
  (periods manifest <> [] ->
   exists manifest', filterByCommonCodecs manifest = Normal manifest') /\
  (forall message, filterByCommonCodecs manifest = AssertionFailure message ->
                   periods manifest = []).
Proof.
  split; [|split].
  - intros H. unfold filterByCommonCodecs. rewrite H. reflexivity.
  - intros H. eexists. apply filterByCommonCodecs_normal, H.
  - intros message. unfold filterByCommonCodecs.
    destruct (periods manifest); [reflexivity|discriminate].
Qed.
End CommonCodecsClaims.

Section RollingInvariants.
Import VariantCodecSummarySet ManifestFilter.
Context {StreamRest VariantRest PeriodRest ManifestRest Error Env : Type}.

Variable filter : @PeriodFilter StreamRest VariantRest PeriodRest Error Env.

Implicit Types manifest : Extern.Manifest StreamRest VariantRest PeriodRest ManifestRest.
Implicit Types (ps later : list (Extern.Period StreamRest VariantRest PeriodRest)).
Implicit Types (p q c : Extern.Period StreamRest VariantRest PeriodRest) (env e : Env).

(** Nothing is compatible with the empty set. *)
Lemma prune_empty set p : all_ set = [] -> variants (prune set p) = [].
Proof.
  intros H. simpl. induction (variants p) as [|v vs IH]; simpl; [reflexivity|].
  unfold compatible at 1, contains. rewrite H. simpl. exact IH.
Qed.

Lemma neverAdds_empty c e :
  neverAdds filter -> variants c = [] -> variants (filter c e).1.2 = [].
Proof.
  intros Hna Hc. destruct (variants (filter c e).1.2) as [|v vs] eqn:E;
    [reflexivity|].
  assert (Hv : v ∈ variants c) by (apply (Hna c e); rewrite E; left).
  rewrite Hc in Hv. inversion Hv.
Qed.

(** From an empty [previous] a resolved loop leaves only empty periods. *)
Lemma empty_previous ps set env :
  neverAdds filter ->
  all_ set = [] ->
  settlement (rollingLoop filter (Some set) ps env) = Resolved ->
  forall q, q ∈ after (rollingLoop filter (Some set) ps env) -> variants q = [].
Proof.
  intros Hna. revert set env.
  induction ps as [|p later IH]; intros set env Hset; simpl.
  - intros _ q Hq. inversion Hq.
  - pose proof (neverAdds_empty (prune set p) env Hna (prune_empty set p Hset)) as Hq.
    destruct (filter (prune set p) env) as [[[|reason] filtered] env'];
      simpl in *; [|discriminate].
    intros Hres q' Hq'. apply elem_of_cons in Hq'. destruct Hq' as [->|Hq']; [exact Hq|].
    eapply IH; [|exact Hres|exact Hq']. rewrite Hq. reflexivity.
Qed.

Lemma cascade ps previous env k q :
  neverAdds filter ->
  settlement (rollingLoop filter previous ps env) = Resolved ->
  after (rollingLoop filter previous ps env) !! k = Some q ->
  variants q = [] ->
  forall j q', k < j ->
    after (rollingLoop filter previous ps env) !! j = Some q' -> variants q' = [].
Proof.
  intros Hna. revert previous env k.
  induction ps as [|p later IH]; intros previous env k; simpl; [discriminate|].
  destruct (filter (pruneIfPrevious previous p) env) as [[[|reason] filtered] env'];
    simpl; [|discriminate].
  intros Hres Hk Hq j q' Hlt Hj. destruct j as [|j]; [lia|]. simpl in Hj.
  destruct k as [|k]; simpl in Hk.
  - injection Hk as ->.
    eapply (empty_previous later (fromVariants (variants q)) env' Hna);
      [rewrite Hq; reflexivity|exact Hres|].
    eapply list_elem_of_lookup_2. exact Hj.
  - apply (IH _ _ k Hres Hk Hq j q'); [lia|exact Hj].
Qed.

(** What the loop itself writes: the period it hands over is the period of
    the same position, narrowed. *)
Lemma call_narrowed ps previous env i c e :
  calls (rollingLoop filter previous ps env) !! i = Some (c, e) ->
  exists p, ps !! i = Some p /\ narrowed p c.
Proof.
  destruct i as [|i].
  - destruct ps as [|p later]; [discriminate|]. rewrite call_first.
    intros H. injection H as <- <-. exists p. split; [reflexivity|].
    destruct previous as [set|]; simpl.
    + split; [reflexivity|apply filter_sublist].
    + split; reflexivity.
  - intros H. apply call_succ in H.
    destruct H as (c0 & e0 & p' & q & _ & _ & Hp & _ & ->).
    exists p'. split; [exact Hp|]. split; [reflexivity|apply filter_sublist].
Qed.

(** The argument of every call: the first period as [previous] prunes it,
    a later period pruned against the period before as it was left. *)
Lemma call_argument ps previous env i c e :
  calls (rollingLoop filter previous ps env) !! i = Some (c, e) ->
  exists p, ps !! i = Some p /\
    match i with
    | O => c = pruneIfPrevious previous p
    | S i' =>
        exists q, after (rollingLoop filter previous ps env) !! i' = Some q /\
                  c = prune (summariesOf q) p
    end.
Proof.
  destruct i as [|i].
  - destruct ps as [|p later]; [discriminate|]. rewrite call_first.
    intros H. injection H as <- <-. exists p. split; reflexivity.
  - intros H. apply call_succ in H.
    destruct H as (c0 & e0 & p' & q & _ & _ & Hp & Hq & ->).
    exists p'. split; [exact Hp|]. exists q. split; [exact Hq|reflexivity].
Qed.

(** The calls before a call that was made have resolved. *)
Lemma call_before ps previous env k c e i :
  calls (rollingLoop filter previous ps env) !! k = Some (c, e) ->
  i < k ->
  exists ci ei,
    calls (rollingLoop filter previous ps env) !! i = Some (ci, ei) /\
    (filter ci ei).1.1 = Resolved.
Proof.
  intros Hk Hlt.
  assert (Hsi : is_Some (calls (rollingLoop filter previous ps env) !! S i)).
  { apply lookup_lt_is_Some_2. apply lookup_lt_Some in Hk. lia. }
  destruct Hsi as [[c' e'] Hsi]. apply call_succ in Hsi.
  destruct Hsi as (ci & ei & p' & q & Hci & Hcall & _).
  exists ci, ei. split; [exact Hci|]. rewrite Hcall. reflexivity.
Qed.

Lemma narrowed_refl p : narrowed p p.
Proof. split; reflexivity. Qed.

Lemma narrowed_trans p q c : narrowed p q -> narrowed q c -> narrowed p c.
Proof.
  intros [H1 H2] [H3 H4]. split; [congruence|]. etransitivity; eassumption.
Qed.

Lemma pruneIfPrevious_narrowed previous p : narrowed p (pruneIfPrevious previous p).
Proof.
  destruct previous; simpl; [|apply narrowed_refl].
  split; [reflexivity|apply filter_sublist].
Qed.

(** With an injected filter that only narrows, so does the whole loop. *)
Lemma loop_narrows ps previous env :
  onlyNarrows filter ->
  Forall2 narrowed ps (after (rollingLoop filter previous ps env)).
Proof.
  intros Hn. revert previous env.
  induction ps as [|p later IH]; intros previous env; simpl; [constructor|].
  pose proof (Hn (pruneIfPrevious previous p) env) as Hq.
  destruct (filter (pruneIfPrevious previous p) env) as [[[|reason] filtered] env'];
    simpl in *; constructor.
  - eapply narrowed_trans; [apply pruneIfPrevious_narrowed|exact Hq].
  - apply IH.
  - eapply narrowed_trans; [apply pruneIfPrevious_narrowed|exact Hq].
  - apply Forall2_same_length_lookup_2; [reflexivity|].
    intros i x y Hx Hy. rewrite Hx in Hy. injection Hy as <-. apply narrowed_refl.
Qed.
End RollingInvariants.

Section RollingFilterClaims.
Import VariantCodecSummarySet ManifestFilter.
Context {StreamRest VariantRest PeriodRest ManifestRest Error Env : Type}.

Implicit Types manifest : Extern.Manifest StreamRest VariantRest PeriodRest ManifestRest.
Implicit Types filter : @PeriodFilter StreamRest VariantRest PeriodRest Error Env.
Implicit Types (p q c : Extern.Period StreamRest VariantRest PeriodRest) (env e : Env).

(** C2. [rollingFilter] calls the injected filter on the periods in timeline
    order, one call per period, call [i] on period [i].  The first period is
    handed over as it is.  A call on a later period comes after the call on
    the period before has resolved, in the environment that call left, and
    its argument is the period with its variant list replaced by the
    subsequence of the variants whose summary is contained in the set built
    from the variant list the preceding call left in the preceding period;
    no earlier period enters.  Each period handed over ends as the filter
    left it, after a resolved call the next period, if any, is handed over,
    and a run that resolves has made one call per period. *)
Theorem rollingFilter_steps manifest filter env :
  let r := rollingFilter manifest filter env in
  length (calls r) <= length (periods manifest) /\
  (forall p, periods manifest !! 0%nat = Some p -> calls r !! 0%nat = Some (p, env)) /\
  (forall i c' e', calls r !! S i = Some (c', e') ->
     exists c e p' q,
       calls r !! i = Some (c, e) /\
       filter c e = (Resolved, q, e') /\
       periods manifest !! S i = Some p' /\
       periods (after r) !! i = Some q /\
       c' = setVariants p'
              (List.filter
                 (fun v => contains (fromVariants (variants q))
                                    (VariantCodecSummary.constructor v))
                 (variants p'))) /\
  (forall i c e, calls r !! i = Some (c, e) ->
     (filter c e).1.1 = Resolved ->
     S i < length (periods manifest) ->
     is_Some (calls r !! S i)) /\
  (forall i c e, calls r !! i = Some (c, e) ->
     periods (after r) !! i = Some (filter c e).1.2) /\
  (settlement r = Resolved -> length (calls r) = length (periods manifest)).
Proof.
  simpl. split; [apply calls_length|]. split; [|split; [|split; [|split]]];
    [| | | |apply resolved_calls_length].
  - intros p Hp. destruct (periods manifest) as [|p0 later]; [discriminate|].
    injection Hp as ->. apply call_first.
  - intros i c' e' H. apply call_succ in H. exact H.
  - intros i c e. apply call_progress.
  - intros i c e. apply call_result.
Qed.

(** C3. With an injected filter that never adds variants, when the rolling
    filter resolves and some period has ended with no variant, the set built
    from it is empty and every later period has ended with no variant. *)
Theorem rollingFilter_cascading_empty manifest filter env k q :
  neverAdds filter ->
  settlement (rollingFilter manifest filter env) = Resolved ->
  periods (after (rollingFilter manifest filter env)) !! k = Some q ->
  variants q = [] ->
  all_ (summariesOf q) = [] /\
  forall j q', k < j ->
    periods (after (rollingFilter manifest filter env)) !! j = Some q' ->
    variants q' = [].
Proof.
  simpl. intros Hna Hres Hk Hq. split.
  - unfold summariesOf. rewrite Hq. reflexivity.
  - eapply cascade; eassumption.
Qed.

(** C4. When the call of the injected filter on period [k] rejects, the
    rolling filter rejects with the same reason and that call is its last:
    no call is made on a later period, and the later periods are as they
    were.  Period [k] was handed over with its variant list replaced by the
    subsequence of the variants whose summary is contained in the set built
    from the variants left in the period before (unpruned when [k] is the
    first), and is left as the rejecting call left it.  Every period before
    [k] was handed over in the same way, its call resolved, and it is left
    as that call left it; these periods, and the calls on them, are those of
    the rolling filter run on the manifest cut before [k], which resolves. *)
Theorem rollingFilter_rejection manifest filter env k c e reason :
  calls (rollingFilter manifest filter env) !! k = Some (c, e) ->
  (filter c e).1.1 = Rejected reason ->
  settlement (rollingFilter manifest filter env) = Rejected reason /\
  length (calls (rollingFilter manifest filter env)) = S k /\
  envAfter (rollingFilter manifest filter env) = (filter c e).2 /\
  drop (S k) (periods (after (rollingFilter manifest filter env))) =
    drop (S k) (periods manifest) /\
  periods (after (rollingFilter manifest filter env)) !! k = Some (filter c e).1.2 /\
  (exists p, periods manifest !! k = Some p /\
     match k with
     | O => c = p
     | S k' =>
         exists q,
           periods (after (rollingFilter manifest filter env)) !! k' = Some q /\
           c = setVariants p
                 (List.filter
                    (fun v => contains (fromVariants (variants q))
                                       (VariantCodecSummary.constructor v))
                    (variants p))
     end) /\
  (forall i, i < k ->
     exists ci ei p,
       calls (rollingFilter manifest filter env) !! i = Some (ci, ei) /\
       (filter ci ei).1.1 = Resolved /\
       periods (after (rollingFilter manifest filter env)) !! i =
         Some (filter ci ei).1.2 /\
       periods manifest !! i = Some p /\
       match i with
       | O => ci = p
       | S i' =>
           exists q,
             periods (after (rollingFilter manifest filter env)) !! i' = Some q /\
             ci = setVariants p
                    (List.filter
                       (fun v => contains (fromVariants (variants q))
                                          (VariantCodecSummary.constructor v))
                       (variants p))
       end) /\
  settlement (rollingFilter (setPeriods manifest (take k (periods manifest))) filter env)
    = Resolved /\
  periods (after (rollingFilter (setPeriods manifest (take k (periods manifest)))
                                filter env))
    = take k (periods (after (rollingFilter manifest filter env))) /\
  calls (rollingFilter (setPeriods manifest (take k (periods manifest))) filter env)
    = take k (calls (rollingFilter manifest filter env)) /\
  envAfter (rollingFilter (setPeriods manifest (take k (periods manifest))) filter env)
    = e.
Proof.
  simpl. intros Hcall Hrej.
  destruct (call_rejected filter _ _ _ _ _ _ _ Hcall Hrej) as (H1 & H2 & H3 & H4).
  destruct (run_before_call filter _ _ _ _ _ _ Hcall) as (H5 & H6 & H7 & H8).
  repeat (split; [assumption|]).
  split; [apply call_result, Hcall|]. split; [|split; [|auto]].
  - destruct (call_argument filter _ _ _ _ _ _ Hcall) as (p & Hp & Harg).
    exists p. split; [exact Hp|]. destruct k as [|k]; exact Harg.
  - intros i Hi.
    destruct (call_before filter _ _ _ _ _ _ i Hcall Hi) as (ci & ei & Hci & Hres).
    destruct (call_argument filter _ _ _ _ _ _ Hci) as (p & Hp & Harg).
    exists ci, ei, p. split; [exact Hci|]. split; [exact Hres|].
    split; [apply call_result, Hci|]. split; [exact Hp|].
    destruct i as [|i]; exact Harg.
Qed.

(** C10. On a manifest without periods the rolling filter resolves, makes no
    call of the injected filter, and leaves the manifest and the filter's
    environment as they were: it has no check that a period exists. *)
Theorem rollingFilter_no_periods (rest : ManifestRest) filter env :
  rollingFilter (mkManifest [] rest) filter env =
  mkRun Resolved (mkManifest [] rest) env [].
Proof. reflexivity. Qed.
End RollingFilterClaims.

Section FrameClaims.
Import VariantCodecSummarySet ManifestFilter.
Context {StreamRest VariantRest PeriodRest ManifestRest Error Env : Type}.

Implicit Types manifest : Extern.Manifest StreamRest VariantRest PeriodRest ManifestRest.
Implicit Types filter : @PeriodFilter StreamRest VariantRest PeriodRest Error Env.

Lemma map_prune_narrowed set (ps : list (Extern.Period StreamRest VariantRest PeriodRest)) :
  Forall2 narrowed ps (map (prune set) ps).
Proof.
  induction ps as [|p ps IH]; simpl; constructor; [|exact IH].
  split; [reflexivity|apply filter_sublist].
Qed.

(** C9. Both filters leave the manifest's other fields and the number and
    order of its periods as they were.  [filterByCommonCodecs] leaves each
    period with its other fields and with a subsequence of its variants,
    themselves unchanged.  [rollingFilter] hands each period to the injected
    filter with its other fields and a subsequence of its variants, leaves
    it as the injected filter left it, and leaves a period on which no call
    was made as it was; so when the injected filter only narrows the variant
    list of its period, every period ends with its other fields and a
    subsequence of its variants.  The value computed is the state of the
    given manifest, not a manifest built anew. *)
Theorem filters_only_narrow :
  (forall manifest manifest',
     filterByCommonCodecs manifest = Normal manifest' ->
     manifestRest manifest' = manifestRest manifest /\
     Forall2 narrowed (periods manifest) (periods manifest')) /\
  (forall manifest filter env,
     manifestRest (after (rollingFilter manifest filter env)) = manifestRest manifest /\
     length (periods (after (rollingFilter manifest filter env))) =
       length (periods manifest) /\
     (forall i c e,
        calls (rollingFilter manifest filter env) !! i = Some (c, e) ->
        (exists p, periods manifest !! i = Some p /\ narrowed p c) /\
        periods (after (rollingFilter manifest filter env)) !! i =
          Some (filter c e).1.2) /\
     (forall i,
        length (calls (rollingFilter manifest filter env)) <= i ->
        periods (after (rollingFilter manifest filter env)) !! i =
          periods manifest !! i) /\
     (onlyNarrows filter ->
      Forall2 narrowed (periods manifest)
              (periods (after (rollingFilter manifest filter env))))).
Proof.
  split.
  - intros manifest manifest' H. unfold filterByCommonCodecs in H.
    destruct (periods manifest) as [|p ps] eqn:E; [discriminate|].
    simpl in H. injection H as <-. simpl. split; [reflexivity|].
    apply (map_prune_narrowed _ (p :: ps)).
  - intros manifest filter env. simpl.
    split; [reflexivity|]. split; [apply after_length|]. split; [|split].
    + intros i c e H. split; [eapply call_narrowed; exact H|apply call_result, H].
    + intros i. apply not_reached.
    + apply loop_narrows.
Qed.
End FrameClaims.

(** ** The statements on the sample presentations *)

Section FilterWitness.
Import VariantCodecSummarySet ManifestFilter Sample.

Lemma filterByCommonCodecs_keeps_common_witness :
  periods sameBases <> [] /\
  exists manifest',
    filterByCommonCodecs sameBases = Normal manifest' /\
    length (periods manifest') = length (periods sameBases).
Proof.
  assert (H : periods sameBases <> []) by discriminate.
  split; [exact H|].
  destruct (filterByCommonCodecs_keeps_common sameBases H) as (m' & H1 & H2 & _).
  exists m'. split; [exact H1|exact H2].
Defined.

Lemma filterByCommonCodecs_precondition_witness :
  filterByCommonCodecs (manifest []) =
    AssertionFailure "There should be at least be one period" /\
  exists manifest', filterByCommonCodecs disjoint = Normal manifest'.
Proof.
  split.
  - apply (proj1 (filterByCommonCodecs_precondition (manifest []))). reflexivity.
  - apply (proj1 (proj2 (filterByCommonCodecs_precondition disjoint))). discriminate.
Defined.

Lemma rollingFilter_steps_witness :
  calls (rollingFilter shrinking keepAll 0) !! 2%nat = Some (period [], 2) /\
  exists c e p' q,
    calls (rollingFilter shrinking keepAll 0) !! 1%nat = Some (c, e) /\
    keepAll c e = (Resolved, q, 2) /\
    periods shrinking !! 2%nat = Some p' /\
    periods (after (rollingFilter shrinking keepAll 0)) !! 1%nat = Some q /\
    period [] =
      setVariants p'
        (List.filter
           (fun v => contains (fromVariants (variants q))
                              (VariantCodecSummary.constructor v))
           (variants p')).
Proof.
  assert (H : calls (rollingFilter shrinking keepAll 0) !! 2%nat = Some (period [], 2))
    by reflexivity.
  split; [exact H|].
  exact (proj1 (proj2 (proj2 (rollingFilter_steps shrinking keepAll 0))) 1 _ _ H).
Defined.

Lemma rollingFilter_cascading_empty_witness :
  neverAdds keepAll /\
  settlement (rollingFilter cascading keepAll 0) = Resolved /\
  periods (after (rollingFilter cascading keepAll 0)) !! 1%nat = Some (period []) /\
  variants (period []) = [] /\
  all_ (summariesOf (period [])) = [] /\
  forall j q', 1 < j ->
    periods (after (rollingFilter cascading keepAll 0)) !! j = Some q' ->
    variants q' = [].
Proof.
  assert (H1 : neverAdds keepAll) by (intros p n v Hv; exact Hv).
  split; [exact H1|]. split; [reflexivity|]. split; [reflexivity|].
  split; [reflexivity|].
  apply (rollingFilter_cascading_empty cascading keepAll 0 1 (period []) H1);
    reflexivity.
Defined.

Lemma rollingFilter_rejection_witness :
  calls (rollingFilter pruned failSecond 0) !! 1%nat = Some (period [avcMain], 1) /\
  (failSecond (period [avcMain]) 1).1.1 = Rejected "unsupported" /\
  settlement (rollingFilter pruned failSecond 0) = Rejected "unsupported" /\
  length (calls (rollingFilter pruned failSecond 0)) = 2 /\
  drop 2 (periods (after (rollingFilter pruned failSecond 0))) = drop 2 (periods pruned) /\
  exists p, periods pruned !! 1%nat = Some p /\
    exists q,
      periods (after (rollingFilter pruned failSecond 0)) !! 0%nat = Some q /\
      period [avcMain] =
        setVariants p
          (List.filter
             (fun v => contains (fromVariants (variants q))
                                (VariantCodecSummary.constructor v))
             (variants p)).
Proof.
  assert (H1 : calls (rollingFilter pruned failSecond 0) !! 1%nat =
               Some (period [avcMain], 1)) by reflexivity.
  assert (H2 : (failSecond (period [avcMain]) 1).1.1 = Rejected "unsupported")
    by reflexivity.
  split; [exact H1|]. split; [exact H2|].
  destruct (rollingFilter_rejection pruned failSecond 0 1 _ _ _ H1 H2)
    as (H3 & H4 & _ & H5 & _ & H6 & _).
  split; [exact H3|]. split; [exact H4|]. split; [exact H5|exact H6].
Defined.

Lemma filters_only_narrow_witness :
  onlyNarrows dropAll /\
  Forall2 narrowed (periods shrinking)
          (periods (after (rollingFilter shrinking dropAll 0))) /\
  Forall2 narrowed (periods disjoint) [period []; period []].
Proof.
  assert (H : onlyNarrows dropAll).
  { intros p n. split; [reflexivity|apply sublist_nil_l]. }
  split; [exact H|]. split.
  - apply (proj2 (@filters_only_narrow unit unit unit unit string nat)). exact H.
  - apply (proj1 (@filters_only_narrow unit unit unit unit string nat)
                 disjoint (manifest [period []; period []])).
    reflexivity.
Defined.
End FilterWitness.

(** * Further properties of the code *)

(** ** The set operations as union, intersection and image *)

Section SetAlgebra.
Import VariantCodecSummarySet.
Implicit Types (this other : t) (x y : VariantCodecSummary.t).

(** Adding a list of summaries appends, to what is stored, some of them in
    their order. *)
Lemma fold_add_shape (l : list VariantCodecSummary.t) this :
  exists k, all_ (fold_left (fun this item => add this item) l this) = all_ this ++ k /\
            k `sublist_of` l.
Proof.
  revert this. induction l as [|x l IH]; intros this; simpl.
  - exists []. rewrite app_nil_r. split; [reflexivity|constructor].
  - destruct (IH (add this x)) as (k & Hk & Hsub). rewrite Hk. unfold add.
    destruct (contains this x); simpl.
    + exists k. split; [reflexivity|]. apply sublist_cons, Hsub.
    + exists (x :: k). rewrite <- app_assoc. split; [reflexivity|].
      apply sublist_skip, Hsub.
Qed.

(** Adding a list and adding the set built from that list are the same. *)
Lemma fold_add_built (l : list VariantCodecSummary.t) this :
  fold_left (fun this item => add this item) l this =
  fold_left (fun this item => add this item)
            (all_ (fold_left (fun this item => add this item) l constructor)) this.
Proof.
  induction l as [|x l IH] using rev_ind; [reflexivity|].
  rewrite !fold_left_app. simpl.
  destruct (contains (fold_left (fun this item => add this item) l constructor) x)
    eqn:E.
  - rewrite (add_present _ x E), <- IH. apply add_present.
    rewrite includeAll_fold in E |- *. simpl in E. rewrite E. apply orb_true_r.
  - rewrite (add_absent _ x E), fold_left_app, <- IH. reflexivity.
Qed.

(** X1. [this.includeAll(other)] is union: afterwards a summary is
    contained exactly when [this] or [other] contained it.  Nothing stored
    is removed or moved: the old array is a prefix of the new one, and what
    is appended is a subsequence of [other]'s array. *)
Theorem includeAll_union this other :
  (forall y, contains (includeAll this other) y = contains this y || contains other y) /\
  exists k, all_ (includeAll this other) = all_ this ++ k /\
            k `sublist_of` all_ other.
Proof.
  split; [intros y; apply contains_includeAll|apply fold_add_shape].
Qed.

(** X2. [this.onlyKeep(other)] is intersection: afterwards a summary
    is contained exactly when [this] and [other] both contained it.  Nothing
    is added or reordered: the new array is a subsequence of the old one;
    and keeping against the same set a second time changes nothing. *)
Theorem onlyKeep_intersection this other :
  (forall y, contains (onlyKeep this other) y = contains this y && contains other y) /\
  all_ (onlyKeep this other) `sublist_of` all_ this /\
  onlyKeep (onlyKeep this other) other = onlyKeep this other.
Proof.
  split; [intros y; apply contains_onlyKeep|]. split; [apply filter_sublist|].
  apply set_eq. simpl. apply forallb_filter_id, forallb_forall.
  intros x Hx. apply filter_In in Hx. apply Hx.
Qed.
End SetAlgebra.

Section FromVariantsAlgebra.
Import VariantCodecSummarySet.
Context {StreamRest VariantRest : Type}.
Implicit Types vs : list (Variant StreamRest VariantRest).

(** The array built from a list of summaries is ordered by first
    occurrence: of two stored summaries, the one stored first occurs in the
    list before every occurrence of the other. *)
Lemma fold_add_order (l : list VariantCodecSummary.t) :
  forall i j x y,
    all_ (fold_left (fun this item => add this item) l constructor) !! i = Some x ->
    all_ (fold_left (fun this item => add this item) l constructor) !! j = Some y ->
    i < j ->
    exists n, l !! n = Some x /\ forall m, l !! m = Some y -> n < m.
Proof.
  induction l as [|s l IH] using rev_ind; [intros i j x y H; discriminate|].
  assert (Hmem : forall z,
            z ∈ all_ (fold_left (fun this item => add this item) l constructor) <->
            z ∈ l).
  { intros z. rewrite <- contains_true, includeAll_fold. simpl.
    apply existsb_equals. }
  assert (Hold : forall i j x y,
            all_ (fold_left (fun this item => add this item) l constructor) !! i
              = Some x ->
            all_ (fold_left (fun this item => add this item) l constructor) !! j
              = Some y ->
            i < j ->
            exists n, (l ++ [s]) !! n = Some x /\
                      forall m, (l ++ [s]) !! m = Some y -> n < m).
  { intros i j x y Hi Hj Hlt. destruct (IH i j x y Hi Hj Hlt) as (n & Hn & Hall).
    exists n. split; [apply lookup_app_l_Some, Hn|].
    intros m Hm. destruct (decide (m < length l)) as [Hml|Hml].
    - rewrite lookup_app_l in Hm by exact Hml. apply Hall, Hm.
    - apply lookup_lt_Some in Hn. lia. }
  intros i j x y. rewrite fold_left_app. simpl.
  destruct (contains (fold_left (fun this item => add this item) l constructor) s)
    eqn:E.
  - rewrite (add_present _ s E). apply Hold.
  - rewrite (add_absent _ s E). intros Hi Hj Hlt.
    destruct (decide
                (j < length (all_ (fold_left (fun this item => add this item) l
                                             constructor)))) as [Hjl|Hjl].
    + rewrite lookup_app_l in Hi by lia. rewrite lookup_app_l in Hj by exact Hjl.
      eapply Hold; eassumption.
    + pose proof (lookup_lt_Some _ _ _ Hj) as Hjlen.
      rewrite length_app in Hjlen. simpl in Hjlen.
      rewrite lookup_app_r in Hj by lia.
      replace (j - length (all_ (fold_left (fun this item => add this item) l
                                           constructor))) with 0 in Hj by lia.
      simpl in Hj. injection Hj as <-.
      rewrite lookup_app_l in Hi by lia.
      assert (Hx : x ∈ l) by (apply Hmem; eapply list_elem_of_lookup_2; exact Hi).
      apply list_elem_of_lookup_1 in Hx. destruct Hx as [n Hn].
      exists n. split; [apply lookup_app_l_Some, Hn|].
      intros m Hm. destruct (decide (m < length l)) as [Hml|Hml].
      * rewrite lookup_app_l in Hm by exact Hml.
        apply contains_false in E. exfalso. apply E, Hmem.
        eapply list_elem_of_lookup_2. exact Hm.
      * apply lookup_lt_Some in Hn. lia.
Qed.

(** X3. The set built from a list of variants contains exactly the
    summaries of those variants, and stores them in the order of their first
    occurrence: its array is a subsequence of the list of the variants'
    summaries, so it never has more elements than the list has variants; it
    stores no summary twice; and of two stored summaries the one stored
    first occurs in the list of the variants' summaries before every
    occurrence of the other. *)
Theorem fromVariants_members vs :
  (forall y, contains (fromVariants vs) y = true <->
             exists v, v ∈ vs /\ y = VariantCodecSummary.constructor v) /\
  all_ (fromVariants vs) `sublist_of` map VariantCodecSummary.constructor vs /\
  length (all_ (fromVariants vs)) <= length vs /\
  distinct (fromVariants vs) = true /\
  (forall i j x y,
     all_ (fromVariants vs) !! i = Some x ->
     all_ (fromVariants vs) !! j = Some y ->
     i < j ->
     exists n,
       map VariantCodecSummary.constructor vs !! n = Some x /\
       forall m, map VariantCodecSummary.constructor vs !! m = Some y -> n < m).
Proof.
  assert (Hsub : all_ (fromVariants vs) `sublist_of`
                 map VariantCodecSummary.constructor vs).
  { unfold fromVariants. rewrite fromVariants_fold.
    destruct (fold_add_shape (map VariantCodecSummary.constructor vs) constructor)
      as (k & -> & Hk). exact Hk. }
  split; [|split; [exact Hsub|split; [|split]]].
  - intros y. rewrite contains_fromVariants, existsb_exists.
    split; intros [v [H1 H2]]; exists v.
    + apply equals_true in H2. split; [apply list_elem_of_In, H1|exact H2].
    + split; [apply list_elem_of_In, H1|apply equals_true, H2].
  - apply sublist_length in Hsub. rewrite length_map in Hsub. exact Hsub.
  - apply distinct_fromVariants.
  - unfold fromVariants. rewrite fromVariants_fold. apply fold_add_order.
Qed.

(** X4. Building the set of a concatenation is building the set of
    the first list and including the set of the second: the two sets store
    the same array. *)
Theorem fromVariants_app vs1 vs2 :
  fromVariants (vs1 ++ vs2) = includeAll (fromVariants vs1) (fromVariants vs2).
Proof.
  unfold fromVariants at 1. rewrite fold_left_app.
  fold (fromVariants vs1). rewrite fromVariants_fold.
  unfold includeAll, fromVariants at 2. rewrite (fromVariants_fold vs2).
  apply fold_add_built.
Qed.
End FromVariantsAlgebra.

(** ** filterByCommonCodecs: what is left is uniform *)

Section CommonCodecsAlgebra.
Import VariantCodecSummarySet ManifestFilter.
Context {StreamRest VariantRest PeriodRest ManifestRest : Type}.
Implicit Types manifest : Extern.Manifest StreamRest VariantRest PeriodRest ManifestRest.
Implicit Types (ps : list (Extern.Period StreamRest VariantRest PeriodRest)).
Implicit Types (P Q : Extern.Period StreamRest VariantRest PeriodRest).

(** Pruning reads the set through [contains] only. *)
Lemma prune_ext set set' P : same_members set set' -> prune set P = prune set' P.
Proof.
  intros H. unfold prune. f_equal. apply filter_ext. intros v. apply H.
Qed.

(** The summaries of a pruned period are those of the period that the set
    contains. *)
Lemma summariesOf_prune set P y :
  contains (summariesOf (prune set P)) y = contains (summariesOf P) y && contains set y.
Proof.
  unfold summariesOf. rewrite !contains_fromVariants. simpl.
  induction (variants P) as [|v vs IH]; simpl; [reflexivity|].
  unfold compatible at 1.
  destruct (VariantCodecSummary.equals y (VariantCodecSummary.constructor v)) eqn:E;
    destruct (contains set (VariantCodecSummary.constructor v)) eqn:Ec;
    simpl; rewrite ?E, IH; simpl; try reflexivity.
  - apply equals_true in E. rewrite E, Ec. reflexivity.
  - apply equals_true in E. rewrite E, Ec, andb_false_r. reflexivity.
Qed.

Lemma contains_common_forallb ps y :
  ps <> [] ->
  contains (commonSummaries ps) y =
  forallb (fun P => contains (summariesOf P) y) ps.
Proof.
  destruct ps as [|P ps]; [contradiction|]. intros _. apply contains_commonSummaries.
Qed.

(** After the pruning every period has the summaries of [common]. *)
Lemma pruned_members ps P y :
  P ∈ ps ->
  contains (summariesOf (prune (commonSummaries ps) P)) y =
  contains (commonSummaries ps) y.
Proof.
  intros HP. rewrite summariesOf_prune.
  destruct (contains (commonSummaries ps) y) eqn:E; [|apply andb_false_r].
  rewrite contains_common_forallb in E by (intros ->; inversion HP).
  rewrite forallb_forall in E. rewrite E; [reflexivity|].
  apply list_elem_of_In, HP.
Qed.

(** Periods that have the same summaries already are left as they are. *)
Lemma uniform_fixed ps :
  (forall P Q, P ∈ ps -> Q ∈ ps -> same_members (summariesOf P) (summariesOf Q)) ->
  map (prune (commonSummaries ps)) ps = ps.
Proof.
  intros Hu. rewrite <- (map_id ps) at 3. apply map_ext_in. intros P HP.
  apply list_elem_of_In in HP.
  destruct P as [vs rest]. unfold prune, setVariants. simpl. f_equal.
  apply forallb_filter_id, forallb_forall. intros v Hv. unfold compatible.
  rewrite contains_common_forallb by (intros ->; inversion HP).
  apply forallb_forall. intros Q HQ. apply list_elem_of_In in HQ.
  rewrite <- (Hu _ Q HP HQ). apply contains_fromVariants_own, list_elem_of_In, Hv.
Qed.

Lemma common_Permutation ps ps' :
  ps ≡ₚ ps' -> same_members (commonSummaries ps) (commonSummaries ps').
Proof.
  intros Hp y. destruct ps as [|P ps].
  - apply Permutation_nil_l in Hp. subst ps'. reflexivity.
  - rewrite !contains_common_forallb;
      [|intros ->; symmetry in Hp; apply Permutation_nil_l in Hp; discriminate
       |discriminate].
    apply eq_true_iff_eq. rewrite !forallb_forall.
    split; intros H Q HQ; apply H; apply list_elem_of_In;
      apply list_elem_of_In in HQ; [rewrite Hp|rewrite <- Hp]; exact HQ.
Qed.

(** The periods of the returned manifest have the summaries of [common]. *)
Lemma returned_uniform manifest manifest' :
  filterByCommonCodecs manifest = Normal manifest' ->
  forall P', P' ∈ periods manifest' ->
    same_members (summariesOf P') (commonSummaries (periods manifest)).
Proof.
  intros H P' HP'. unfold filterByCommonCodecs in H.
  destruct (periods manifest) as [|P0 ps] eqn:E; [discriminate|].
  simpl in H. injection H as <-. simpl in HP'.
  change (P' ∈ map (prune (commonSummaries (P0 :: ps))) (P0 :: ps)) in HP'.
  apply list_elem_of_fmap in HP'. destruct HP' as (P & -> & HP).
  intros y. apply pruned_members, HP.
Qed.


(** X6. [filterByCommonCodecs] is idempotent: on the manifest it returned it
    completes normally and removes nothing more. *)
Theorem filterByCommonCodecs_idempotent manifest manifest' :
  filterByCommonCodecs manifest = Normal manifest' ->
  filterByCommonCodecs manifest' = Normal manifest'.
Proof.
  intros H. pose proof (returned_uniform _ _ H) as Hu.
  assert (Hne : periods manifest' <> []).
  { unfold filterByCommonCodecs in H.
    destruct (periods manifest); [discriminate|]. simpl in H.
    injection H as <-. discriminate. }
  rewrite filterByCommonCodecs_normal by exact Hne.
  rewrite uniform_fixed.
  - destruct manifest'. reflexivity.
  - intros P Q HP HQ y. rewrite (Hu P HP), (Hu Q HQ). reflexivity.
Qed.

(** X7. A manifest whose periods all have the same summaries loses nothing;
    so a manifest of one period is returned as it was given. *)
Theorem filterByCommonCodecs_uniform_fixed manifest :
  (periods manifest <> [] ->
   (forall P Q, P ∈ periods manifest -> Q ∈ periods manifest ->
                same_members (summariesOf P) (summariesOf Q)) ->
   filterByCommonCodecs manifest = Normal manifest) /\
  (forall P, periods manifest = [P] -> filterByCommonCodecs manifest = Normal manifest).
Proof.
  assert (H : periods manifest <> [] ->
              (forall P Q, P ∈ periods manifest -> Q ∈ periods manifest ->
                           same_members (summariesOf P) (summariesOf Q)) ->
              filterByCommonCodecs manifest = Normal manifest).
  { intros Hne Hu. rewrite filterByCommonCodecs_normal by exact Hne.
    rewrite uniform_fixed by exact Hu. destruct manifest. reflexivity. }
  split; [exact H|]. intros P HP. apply H; rewrite HP; [discriminate|].
  intros P1 P2 H1 H2. apply list_elem_of_singleton in H1, H2. subst.
  intros y. reflexivity.
Qed.
End CommonCodecsAlgebra.

Section CommonCodecsOrder.
Import VariantCodecSummarySet ManifestFilter.
Context {StreamRest VariantRest PeriodRest ManifestRest : Type}.
Implicit Types manifest : Extern.Manifest StreamRest VariantRest PeriodRest ManifestRest.
Implicit Types (ps : list (Extern.Period StreamRest VariantRest PeriodRest)).
Implicit Types (P Q : Extern.Period StreamRest VariantRest PeriodRest).



(** X8. The order of the periods does not matter to [filterByCommonCodecs]:
    on the manifest with its periods permuted, each period is left with the
    variants it is left with in the given order. *)
Theorem filterByCommonCodecs_order manifest ps' :
  periods manifest ≡ₚ ps' ->
  periods manifest <> [] ->
  filterByCommonCodecs (setPeriods manifest ps') =
  Normal (setPeriods manifest
            (map (prune (commonSummaries (periods manifest))) ps')).
Proof.
  intros Hp Hne. rewrite filterByCommonCodecs_normal.
  - simpl. f_equal. unfold setPeriods. simpl. f_equal.
    apply map_ext. intros P. apply prune_ext. intros y. symmetry.
    apply common_Permutation, Hp.
  - simpl. intros ->. apply Permutation_nil_r in Hp. contradiction.
Qed.

End CommonCodecsOrder.

(** ** rollingFilter: no look-ahead, adjacency, and the common codecs *)

Section RollingAlgebra.
Import VariantCodecSummarySet ManifestFilter.
Context {StreamRest VariantRest PeriodRest ManifestRest Error Env : Type}.

Variable filter : @PeriodFilter StreamRest VariantRest PeriodRest Error Env.

Implicit Types manifest : Extern.Manifest StreamRest VariantRest PeriodRest ManifestRest.
Implicit Types (ps later extra : list (Extern.Period StreamRest VariantRest PeriodRest)).
Implicit Types (p q c P Q : Extern.Period StreamRest VariantRest PeriodRest) (env e : Env).
Implicit Types (previous : option VariantCodecSummarySet.t).

(** The loop over a list of periods followed by more periods: the loop over
    the list, then, unless it rejected, the loop over the others from the
    set of the last period left. *)
Lemma rollingLoop_app ps extra previous env :
  rollingLoop filter previous (ps ++ extra) env =
  match settlement (rollingLoop filter previous ps env) with
  | Resolved =>
      let first := rollingLoop filter previous ps env in
      let previous' :=
        match last (after first) with
        | Some q => Some (summariesOf q)
        | None => previous
        end in
      let rest := rollingLoop filter previous' extra (envAfter first) in
      mkRun (settlement rest) (after first ++ after rest) (envAfter rest)
            (calls first ++ calls rest)
  | Rejected reason =>
      let first := rollingLoop filter previous ps env in
      mkRun (Rejected reason) (after first ++ extra) (envAfter first) (calls first)
  end.
Proof.
  revert previous env. induction ps as [|p later IH]; intros previous env.
  - simpl. destruct (rollingLoop filter previous extra env). reflexivity.
  - simpl.
    destruct (filter (pruneIfPrevious previous p) env)
      as [[[|reason] filtered] env'] eqn:Hcall; simpl; [|reflexivity].
    rewrite IH.
    destruct (settlement (rollingLoop filter
                (Some (fromVariants (variants filtered))) later env')) eqn:Hs;
      simpl; [|reflexivity].
    destruct (after (rollingLoop filter
                (Some (fromVariants (variants filtered))) later env'))
      as [|p0 l] eqn:Ha; [reflexivity|].
    change (last (filtered :: p0 :: l)) with (last (p0 :: l)).
    destruct (last (p0 :: l)) eqn:El; [reflexivity|].
    apply last_None in El. discriminate.
Qed.

(** A variant left in a period that was handed over after another one is
    compatible with that one as it was left. *)
Lemma loop_adjacent ps previous env i q q' :
  neverAdds filter ->
  S i < length (calls (rollingLoop filter previous ps env)) ->
  after (rollingLoop filter previous ps env) !! i = Some q ->
  after (rollingLoop filter previous ps env) !! S i = Some q' ->
  forall v, v ∈ variants q' ->
    contains (summariesOf q) (VariantCodecSummary.constructor v) = true.
Proof.
  intros Hna Hlen Hq Hq' v Hv.
  destruct (lookup_lt_is_Some_2 _ _ Hlen) as [[c' e'] Hc'].
  pose proof (call_result filter _ _ _ _ _ _ Hc') as Hres.
  rewrite Hq' in Hres. injection Hres as ->.
  apply call_succ in Hc'.
  destruct Hc' as (c & e & p' & q0 & _ & _ & _ & Hq0 & ->).
  rewrite Hq in Hq0. injection Hq0 as <-.
  apply Hna in Hv. simpl in Hv. apply filter_elem_of in Hv. apply Hv.
Qed.

(** With an injected filter that changes nothing, periods that have the
    same summaries, and are compatible with [previous], are left as they
    are. *)
Lemma loop_uniform_fixed ps previous env :
  leavesAlone filter ->
  (forall P Q, P ∈ ps -> Q ∈ ps -> same_members (summariesOf P) (summariesOf Q)) ->
  (forall set P v, previous = Some set -> P ∈ ps -> v ∈ variants P ->
                   contains set (VariantCodecSummary.constructor v) = true) ->
  settlement (rollingLoop filter previous ps env) = Resolved /\
  after (rollingLoop filter previous ps env) = ps.
Proof.
  intros Hla. revert previous env.
  induction ps as [|p later IH]; intros previous env Hu Hprev; [split; reflexivity|].
  assert (Hp : pruneIfPrevious previous p = p).
  { destruct previous as [set|]; [|reflexivity]. destruct p as [vs rest].
    unfold pruneIfPrevious, prune, setVariants. simpl. f_equal.
    apply forallb_filter_id, forallb_forall. intros v Hv.
    apply (Hprev set {| variants := vs; periodRest := rest |} v);
      [reflexivity|left|apply list_elem_of_In, Hv]. }
  simpl. rewrite Hp. pose proof (Hla p env) as Hcall.
  destruct (filter p env) as [[s filtered] env']. simpl in Hcall.
  injection Hcall as -> ->. simpl.
  destruct (IH (Some (fromVariants (variants p))) env') as [H1 H2].
  - intros P Q HP HQ. apply Hu; right; assumption.
  - intros set P v Hset HP Hv. injection Hset as <-.
    rewrite <- (Hu P p) by (try (right; exact HP); left).
    apply contains_fromVariants_own, Hv.
  - rewrite H1, H2. split; reflexivity.
Qed.

(** With an injected filter that changes nothing, the loop keeps every
    variant whose summary is [good], when the [good] summaries occur in all
    the periods and in [previous]. *)
Lemma loop_keeps_good (good : VariantCodecSummary.t -> Prop) ps previous env :
  leavesAlone filter ->
  (forall y P, good y -> P ∈ ps -> contains (summariesOf P) y = true) ->
  (forall set y, previous = Some set -> good y -> contains set y = true) ->
  forall i P, ps !! i = Some P ->
    exists Q, after (rollingLoop filter previous ps env) !! i = Some Q /\
              forall v, v ∈ variants P -> good (VariantCodecSummary.constructor v) ->
                        v ∈ variants Q.
Proof.
  intros Hla. revert previous env.
  induction ps as [|p later IH]; intros previous env Hps Hprev i P Hi;
    [discriminate|].
  assert (Hkept : forall v, v ∈ variants p ->
                    good (VariantCodecSummary.constructor v) ->
                    v ∈ variants (pruneIfPrevious previous p)).
  { intros v Hv Hg. destruct previous as [set|]; [|exact Hv]. simpl.
    apply filter_elem_of. split; [exact Hv|]. apply (Hprev set); auto. }
  simpl. pose proof (Hla (pruneIfPrevious previous p) env) as Hcall.
  destruct (filter (pruneIfPrevious previous p) env) as [[s filtered] env'].
  simpl in Hcall. injection Hcall as -> ->. simpl.
  destruct i as [|i]; simpl in Hi |- *.
  - injection Hi as <-. eauto.
  - apply IH; [| |exact Hi].
    + intros y Q Hg HQ. apply Hps; [exact Hg|right; exact HQ].
    + intros set y Hset Hg. injection Hset as <-.
      pose proof (Hps y p Hg ltac:(left)) as Hy.
      unfold summariesOf in Hy. rewrite contains_fromVariants in Hy.
      apply existsb_exists in Hy. destruct Hy as (w & Hw & Heq).
      apply equals_true in Heq. subst y.
      apply contains_fromVariants_own, Hkept; [apply list_elem_of_In, Hw|exact Hg].
Qed.
End RollingAlgebra.

Section RollingFilterAlgebra.
Import VariantCodecSummarySet ManifestFilter.
Context {StreamRest VariantRest PeriodRest ManifestRest Error Env : Type}.

Implicit Types manifest : Extern.Manifest StreamRest VariantRest PeriodRest ManifestRest.
Implicit Types filter : @PeriodFilter StreamRest VariantRest PeriodRest Error Env.
Implicit Types (extra : list (Extern.Period StreamRest VariantRest PeriodRest)).
Implicit Types (q P Q : Extern.Period StreamRest VariantRest PeriodRest) (env : Env).

(** X10. [rollingFilter] never looks ahead: with more periods appended to
    the manifest, the periods that were there are left exactly as without
    them, after the same calls of the injected filter; and a run that
    rejected rejects alike, with the appended periods untouched and no call
    made on them. *)
Theorem rollingFilter_no_lookahead manifest extra filter env :
  take (length (periods manifest))
       (periods (after (rollingFilter
                          (setPeriods manifest (periods manifest ++ extra))
                          filter env)))
    = periods (after (rollingFilter manifest filter env)) /\
  calls (rollingFilter manifest filter env) `prefix_of`
    calls (rollingFilter (setPeriods manifest (periods manifest ++ extra)) filter env) /\
  (forall reason,
     settlement (rollingFilter manifest filter env) = Rejected reason ->
     settlement (rollingFilter (setPeriods manifest (periods manifest ++ extra))
                               filter env) = Rejected reason /\
     calls (rollingFilter (setPeriods manifest (periods manifest ++ extra)) filter env)
       = calls (rollingFilter manifest filter env) /\
     periods (after (rollingFilter (setPeriods manifest (periods manifest ++ extra))
                                   filter env))
       = periods (after (rollingFilter manifest filter env)) ++ extra).
Proof.
  simpl. rewrite rollingLoop_app.
  pose proof (after_length filter (periods manifest) None env) as Hlen.
  destruct (settlement (rollingLoop filter None (periods manifest) env)) eqn:Hs;
    simpl.
  - split; [apply take_app_length'; symmetry; exact Hlen|].
    split; [eexists; reflexivity|]. intros reason H. discriminate.
  - split; [apply take_app_length'; symmetry; exact Hlen|].
    split; [exists []; rewrite app_nil_r; reflexivity|].
    intros reason' H. injection H as <-. auto.
Qed.

(** X11. With an injected filter that never adds variants, every variant
    left in a period that was handed to the filter after another period has
    a variant of equal summary left in that other period; in a run that
    resolves this holds of every two successive periods. *)
Theorem rollingFilter_adjacent manifest filter env i q q' :
  neverAdds filter ->
  settlement (rollingFilter manifest filter env) = Resolved \/
    S i < length (calls (rollingFilter manifest filter env)) ->
  periods (after (rollingFilter manifest filter env)) !! i = Some q ->
  periods (after (rollingFilter manifest filter env)) !! S i = Some q' ->
  forall v, v ∈ variants q' ->
    exists w, w ∈ variants q /\
      VariantCodecSummary.equals (VariantCodecSummary.constructor v)
                                 (VariantCodecSummary.constructor w) = true.
Proof.
  simpl. intros Hna Hreach Hq Hq' v Hv.
  assert (Hlen : S i < length (calls (rollingLoop filter None (periods manifest) env))).
  { destruct Hreach as [Hres|Hlen]; [|exact Hlen].
    rewrite (resolved_calls_length filter _ _ _ Hres),
      <- (after_length filter (periods manifest) None env).
    eapply lookup_lt_Some. exact Hq'. }
  pose proof (loop_adjacent filter _ _ _ _ _ _ Hna Hlen Hq Hq' v Hv) as Hc.
  unfold summariesOf in Hc. rewrite contains_fromVariants in Hc.
  apply existsb_exists in Hc. destruct Hc as (w & Hw & Heq).
  exists w. split; [apply list_elem_of_In, Hw|exact Heq].
Qed.

(** X12. After [filterByCommonCodecs], [rollingFilter] with an injected
    filter that changes nothing resolves and removes nothing: periods that
    all have the same summaries pass the adjacency pruning whole. *)
Theorem rollingFilter_after_common manifest manifest' filter env :
  leavesAlone filter ->
  filterByCommonCodecs manifest = Normal manifest' ->
  settlement (rollingFilter manifest' filter env) = Resolved /\
  after (rollingFilter manifest' filter env) = manifest'.
Proof.
  intros Hla H. simpl.
  destruct (loop_uniform_fixed filter (periods manifest') None env Hla) as [H1 H2].
  - intros P Q HP HQ y.
    rewrite (returned_uniform _ _ H P HP), (returned_uniform _ _ H Q HQ).
    reflexivity.
  - intros set P v Hset. discriminate.
  - rewrite H1, H2. split; [reflexivity|]. destruct manifest'. reflexivity.
Qed.

(** X13. The rolling filter is the weaker of the two: with an injected
    filter that changes nothing, every variant that [filterByCommonCodecs]
    leaves in a period, [rollingFilter] leaves in that period too. *)
Theorem rollingFilter_keeps_common manifest manifest' filter env i P' Q :
  leavesAlone filter ->
  filterByCommonCodecs manifest = Normal manifest' ->
  periods manifest' !! i = Some P' ->
  periods (after (rollingFilter manifest filter env)) !! i = Some Q ->
  forall v, v ∈ variants P' -> v ∈ variants Q.
Proof.
  intros Hla H HP' HQ v Hv. simpl in HQ.
  unfold filterByCommonCodecs in H.
  destruct (periods manifest) as [|P0 ps] eqn:E; [discriminate|].
  simpl in H. injection H as <-. simpl in HP'.
  change (map (prune (commonSummaries (P0 :: ps))) (P0 :: ps) !! i = Some P') in HP'.
  rewrite list_lookup_fmap in HP'.
  destruct ((P0 :: ps) !! i) as [P|] eqn:HP; [|discriminate].
  simpl in HP'. injection HP' as <-. simpl in Hv. apply filter_elem_of in Hv.
  destruct Hv as [Hv Hc].
  destruct (loop_keeps_good filter
              (fun y => contains (commonSummaries (P0 :: ps)) y = true)
              (P0 :: ps) None env Hla) with (i := i) (P := P)
    as (Q0 & HQ0 & Hkeep).
  - intros y R Hy HR. rewrite contains_commonSummaries, forallb_forall in Hy.
    apply Hy, list_elem_of_In, HR.
  - intros set y Hset. discriminate.
  - exact HP.
  - rewrite HQ in HQ0. injection HQ0 as <-. apply Hkeep; assumption.
Qed.
End RollingFilterAlgebra.

(** ** The filters by an outside test *)

Section PredicateFilterFacts.
Import VariantCodecSummarySet ManifestFilter.
Context {StreamRest VariantRest PeriodRest ManifestRest : Type}.
Context {Restrictions MaxHwResolution DrmEngine : Type}.

Variable meetsRestrictions :
  Extern.Variant StreamRest VariantRest -> Restrictions -> MaxHwResolution -> bool.
Variable isStreamSupported : Stream StreamRest -> bool.
Variable supportsVariant : DrmEngine -> Extern.Variant StreamRest VariantRest -> bool.

Implicit Types manifest : Extern.Manifest StreamRest VariantRest PeriodRest ManifestRest.
Implicit Types (f g : Extern.Variant StreamRest VariantRest -> bool).
Implicit Types (v : Extern.Variant StreamRest VariantRest).

Lemma filter_filter {A} (f g : A -> bool) (l : list A) :
  List.filter f (List.filter g l) = List.filter (fun a => g a && f a) l.
Proof.
  induction l as [|a l IH]; simpl; [reflexivity|].
  destruct (g a); simpl; [destruct (f a)|]; rewrite IH; reflexivity.
Qed.

Lemma filterVariants_twice f g manifest :
  filterVariants f (filterVariants g manifest) =
  filterVariants (fun v => g v && f v) manifest.
Proof.
  unfold filterVariants, setPeriods. simpl. f_equal. rewrite map_map.
  apply map_ext. intros P. unfold setVariants. simpl. f_equal. apply filter_filter.
Qed.

Lemma filterVariants_ext f g manifest :
  (forall v, f v = g v) -> filterVariants f manifest = filterVariants g manifest.
Proof.
  intros H. unfold filterVariants. f_equal. apply map_ext. intros P.
  f_equal. apply filter_ext, H.
Qed.

Lemma filterVariants_comm f g manifest :
  filterVariants f (filterVariants g manifest) =
  filterVariants g (filterVariants f manifest).
Proof.
  rewrite !filterVariants_twice. apply filterVariants_ext. intros v. apply andb_comm.
Qed.

Lemma filterVariants_idem f manifest :
  filterVariants f (filterVariants f manifest) = filterVariants f manifest.
Proof.
  rewrite filterVariants_twice. apply filterVariants_ext. intros v. apply andb_diag.
Qed.

Lemma filterVariants_narrowed f manifest :
  manifestRest (filterVariants f manifest) = manifestRest manifest /\
  Forall2 narrowed (periods manifest) (periods (filterVariants f manifest)).
Proof.
  split; [reflexivity|]. simpl.
  induction (periods manifest) as [|P ps IH]; simpl; constructor; [|exact IH].
  split; [reflexivity|apply filter_sublist].
Qed.

Lemma filterVariants_lookup f manifest i P :
  periods manifest !! i = Some P ->
  periods (filterVariants f manifest) !! i =
  Some (setVariants P (List.filter f (variants P))).
Proof. intros H. simpl. rewrite list_lookup_fmap, H. reflexivity. Qed.

Lemma mediaSourceSupported_true v :
  mediaSourceSupported isStreamSupported v = true <->
  (forall s, audio v = Some s -> isStreamSupported s = true) /\
  (forall s, video v = Some s -> isStreamSupported s = true).
Proof.
  unfold mediaSourceSupported.
  destruct (audio v) as [a|], (video v) as [s|]; simpl;
    rewrite ?andb_true_iff; split.
  - intros [Ha Hs]. split; intros s0 H; injection H as <-; assumption.
  - intros [Ha Hs]. split; [apply Ha|apply Hs]; reflexivity.
  - intros Ha. split; intros s0 H; [injection H as <-; exact Ha|discriminate].
  - intros [Ha _]. apply Ha. reflexivity.
  - intros Hs. split; intros s0 H; [discriminate|injection H as <-; exact Hs].
  - intros [_ Hs]. apply Hs. reflexivity.
  - intros _. split; intros s0 H; discriminate.
  - reflexivity.
Qed.

(** X14. [filterByMediaSourceSupport] leaves in each period exactly the
    variants whose audio stream, when there is one, and video stream, when
    there is one, are supported; a variant with neither stream is always
    kept. *)
Theorem filterByMediaSourceSupport_keeps manifest i P :
  periods manifest !! i = Some P ->
  exists P',
    periods (filterByMediaSourceSupport isStreamSupported manifest) !! i = Some P' /\
    (forall v, v ∈ variants P' <->
       v ∈ variants P /\
       (forall s, audio v = Some s -> isStreamSupported s = true) /\
       (forall s, video v = Some s -> isStreamSupported s = true)) /\
    (forall v, v ∈ variants P -> audio v = None -> video v = None ->
               v ∈ variants P').
Proof.
  intros H. eexists. split; [apply filterVariants_lookup, H|]. simpl.
  assert (Hiff : forall v,
             v ∈ List.filter (mediaSourceSupported isStreamSupported) (variants P) <->
             v ∈ variants P /\
             (forall s, audio v = Some s -> isStreamSupported s = true) /\
             (forall s, video v = Some s -> isStreamSupported s = true)).
  { intros v. rewrite filter_elem_of, mediaSourceSupported_true. reflexivity. }
  split; [exact Hiff|]. intros v Hv Ha Hs. apply Hiff.
  split; [exact Hv|]. rewrite Ha, Hs. split; intros s0 H0; discriminate.
Qed.

(** X15. The filters by restrictions, by media source support and by DRM
    support write the variant lists only: the manifest keeps its other
    fields and its periods, each period its other fields and a subsequence
    of its variants.  None of them checks that a period exists: a manifest
    without periods is left as it is. *)
Theorem predicate_filters_narrow manifest restrictions maxHwResolution drmEngine :
  (manifestRest (filterByRestrictions meetsRestrictions manifest restrictions
                                      maxHwResolution) = manifestRest manifest /\
   Forall2 narrowed (periods manifest)
     (periods (filterByRestrictions meetsRestrictions manifest restrictions
                                    maxHwResolution))) /\
  (manifestRest (filterByMediaSourceSupport isStreamSupported manifest)
     = manifestRest manifest /\
   Forall2 narrowed (periods manifest)
     (periods (filterByMediaSourceSupport isStreamSupported manifest))) /\
  (manifestRest (filterByDrmSupport supportsVariant manifest drmEngine)
     = manifestRest manifest /\
   Forall2 narrowed (periods manifest)
     (periods (filterByDrmSupport supportsVariant manifest drmEngine))) /\
  (periods manifest = [] ->
   filterByRestrictions meetsRestrictions manifest restrictions maxHwResolution
     = manifest /\
   filterByMediaSourceSupport isStreamSupported manifest = manifest /\
   filterByDrmSupport supportsVariant manifest drmEngine = manifest).
Proof.
  split; [apply filterVariants_narrowed|]. split; [apply filterVariants_narrowed|].
  split; [apply filterVariants_narrowed|].
  intros H. unfold filterByRestrictions, filterByMediaSourceSupport,
    filterByDrmSupport, filterVariants. rewrite H. simpl.
  destruct manifest as [ps rest]. simpl in H. subst ps. auto.
Qed.

(** X16. The three filters can be applied in any order, and each of them a
    second time changes nothing. *)
Theorem predicate_filters_commute manifest restrictions maxHwResolution drmEngine :
  filterByMediaSourceSupport isStreamSupported
    (filterByRestrictions meetsRestrictions manifest restrictions maxHwResolution)
  = filterByRestrictions meetsRestrictions
      (filterByMediaSourceSupport isStreamSupported manifest)
      restrictions maxHwResolution /\
  filterByDrmSupport supportsVariant
    (filterByRestrictions meetsRestrictions manifest restrictions maxHwResolution)
    drmEngine
  = filterByRestrictions meetsRestrictions
      (filterByDrmSupport supportsVariant manifest drmEngine)
      restrictions maxHwResolution /\
  filterByDrmSupport supportsVariant
    (filterByMediaSourceSupport isStreamSupported manifest) drmEngine
  = filterByMediaSourceSupport isStreamSupported
      (filterByDrmSupport supportsVariant manifest drmEngine) /\
  filterByRestrictions meetsRestrictions
    (filterByRestrictions meetsRestrictions manifest restrictions maxHwResolution)
    restrictions maxHwResolution
  = filterByRestrictions meetsRestrictions manifest restrictions maxHwResolution /\
  filterByMediaSourceSupport isStreamSupported
    (filterByMediaSourceSupport isStreamSupported manifest)
  = filterByMediaSourceSupport isStreamSupported manifest /\
  filterByDrmSupport supportsVariant
    (filterByDrmSupport supportsVariant manifest drmEngine) drmEngine
  = filterByDrmSupport supportsVariant manifest drmEngine.
Proof.
  unfold filterByRestrictions, filterByMediaSourceSupport, filterByDrmSupport.
  repeat split; first [apply filterVariants_comm|apply filterVariants_idem].
Qed.
End PredicateFilterFacts.

(** ** filterByCommonCodecs after a narrowing *)

Section CommonCodecsMonotone.
Import VariantCodecSummarySet ManifestFilter.
Context {StreamRest VariantRest PeriodRest ManifestRest : Type}.
Implicit Types manifest : Extern.Manifest StreamRest VariantRest PeriodRest ManifestRest.
Implicit Types (ps : list (Extern.Period StreamRest VariantRest PeriodRest)).
Implicit Types (P Q : Extern.Period StreamRest VariantRest PeriodRest).

Lemma filter_sublist_mono {A} (f1 f : A -> bool) (l1 l : list A) :
  l1 `sublist_of` l ->
  (forall a, f1 a = true -> f a = true) ->
  List.filter f1 l1 `sublist_of` List.filter f l.
Proof.
  intros Hsub Himp. induction Hsub as [|a l1 l Hsub IH|a l1 l Hsub IH]; simpl.
  - constructor.
  - destruct (f1 a) eqn:E1.
    + rewrite (Himp a E1). apply sublist_skip, IH.
    + destruct (f a); [apply sublist_cons|]; exact IH.
  - destruct (f a); [apply sublist_cons|]; exact IH.
Qed.

Lemma narrowed_summaries P Q y :
  narrowed P Q -> contains (summariesOf Q) y = true -> contains (summariesOf P) y = true.
Proof.
  intros [_ Hsub]. unfold summariesOf. rewrite !contains_fromVariants, !existsb_exists.
  intros (v & Hv & Heq). exists v. split; [|exact Heq].
  apply list_elem_of_In. eapply elem_of_sublist; [|exact Hsub].
  apply list_elem_of_In, Hv.
Qed.

Lemma narrowed_common ps ps1 y :
  Forall2 narrowed ps ps1 ->
  contains (commonSummaries ps1) y = true -> contains (commonSummaries ps) y = true.
Proof.
  intros HF. destruct HF as [|P P1 ps ps1 HP HF]; [auto|].
  rewrite !contains_commonSummaries. simpl. rewrite !andb_true_iff.
  intros [H1 H2]. split; [eapply narrowed_summaries; eassumption|].
  induction HF as [|Q Q1 qs qs1 HQ HF IH]; [reflexivity|].
  simpl in *. apply andb_true_iff in H2. destruct H2 as [H2 H3].
  rewrite (narrowed_summaries _ _ _ HQ H2). apply IH, H3.
Qed.

(** X17. [filterByCommonCodecs] is monotone: when the periods of one manifest
    are those of another with their variant lists narrowed (as the filters
    by restrictions, media source support and DRM support leave them), what
    it leaves of the narrowed manifest is, period by period, a narrowing of
    what it leaves of the other. *)
Theorem filterByCommonCodecs_monotone manifest manifest1 result result1 :
  Forall2 narrowed (periods manifest) (periods manifest1) ->
  filterByCommonCodecs manifest = Normal result ->
  filterByCommonCodecs manifest1 = Normal result1 ->
  Forall2 narrowed (periods result) (periods result1).
Proof.
  intros HF H H1. unfold filterByCommonCodecs in H, H1.
  destruct (periods manifest) as [|P0 ps] eqn:E; [discriminate|].
  destruct (periods manifest1) as [|Q0 qs] eqn:E1; [discriminate|].
  simpl in H, H1. injection H as <-. injection H1 as <-. simpl.
  change (Forall2 narrowed (map (prune (commonSummaries (P0 :: ps))) (P0 :: ps))
                  (map (prune (commonSummaries (Q0 :: qs))) (Q0 :: qs))).
  pose proof (fun y => narrowed_common (P0 :: ps) (Q0 :: qs) y HF) as Hc.
  apply Forall2_fmap. eapply Forall2_impl; [exact HF|].
  intros P Q [Hr Hs]. split; [exact Hr|]. simpl.
  apply filter_sublist_mono; [exact Hs|]. intros v. apply Hc.
Qed.
End CommonCodecsMonotone.

(** ** The further properties on the sample presentations *)

Section ExtraWitness.
Import VariantCodecSummarySet ManifestFilter Sample.

Lemma fromVariants_members_witness :
  all_ (fromVariants [avcBaseline; vp9; avcMain; vp9]) !! 0%nat =
    Some (VariantCodecSummary.constructor avcBaseline) /\
  all_ (fromVariants [avcBaseline; vp9; avcMain; vp9]) !! 1%nat =
    Some (VariantCodecSummary.constructor vp9) /\
  0 < 1 /\
  exists n,
    map VariantCodecSummary.constructor [avcBaseline; vp9; avcMain; vp9] !! n =
      Some (VariantCodecSummary.constructor avcBaseline) /\
    forall m,
      map VariantCodecSummary.constructor [avcBaseline; vp9; avcMain; vp9] !! m =
        Some (VariantCodecSummary.constructor vp9) -> n < m.
Proof.
  split; [reflexivity|]. split; [reflexivity|]. split; [lia|].
  apply (proj2 (proj2 (proj2 (proj2
           (fromVariants_members [avcBaseline; vp9; avcMain; vp9])))) 0 1);
    [reflexivity|reflexivity|lia].
Defined.


Lemma filterByCommonCodecs_idempotent_witness :
  filterByCommonCodecs mixed = Normal sameBases /\
  filterByCommonCodecs sameBases = Normal sameBases.
Proof.
  assert (H : filterByCommonCodecs mixed = Normal sameBases) by reflexivity.
  split; [exact H|]. exact (filterByCommonCodecs_idempotent mixed sameBases H).
Defined.

Lemma filterByCommonCodecs_uniform_fixed_witness :
  periods (manifest [period [vp9; audioOnly]]) = [period [vp9; audioOnly]] /\
  filterByCommonCodecs (manifest [period [vp9; audioOnly]]) =
  Normal (manifest [period [vp9; audioOnly]]).
Proof.
  split; [reflexivity|].
  apply (proj2 (filterByCommonCodecs_uniform_fixed (manifest [period [vp9; audioOnly]]))
               (period [vp9; audioOnly])).
  reflexivity.
Defined.

Lemma filterByCommonCodecs_order_witness :
  periods mixed ≡ₚ [period [avcMain; audioOnly]; period [avcBaseline; vp9]] /\
  periods mixed <> [] /\
  filterByCommonCodecs
    (setPeriods mixed [period [avcMain; audioOnly]; period [avcBaseline; vp9]]) =
  Normal (setPeriods mixed
            (map (prune (commonSummaries (periods mixed)))
                 [period [avcMain; audioOnly]; period [avcBaseline; vp9]])).
Proof.
  assert (H1 : periods mixed ≡ₚ
               [period [avcMain; audioOnly]; period [avcBaseline; vp9]])
    by apply perm_swap.
  assert (H2 : periods mixed <> []) by discriminate.
  split; [exact H1|]. split; [exact H2|].
  exact (filterByCommonCodecs_order mixed _ H1 H2).
Defined.


Lemma rollingFilter_no_lookahead_witness :
  settlement (rollingFilter (manifest [period [avcBaseline]; period [avcMain]])
                            failSecond 0) = Rejected "unsupported" /\
  calls (rollingFilter
           (setPeriods (manifest [period [avcBaseline]; period [avcMain]])
              (periods (manifest [period [avcBaseline]; period [avcMain]])
               ++ [period [vp9]]))
           failSecond 0)
  = calls (rollingFilter (manifest [period [avcBaseline]; period [avcMain]])
                         failSecond 0).
Proof.
  assert (H : settlement (rollingFilter
                            (manifest [period [avcBaseline]; period [avcMain]])
                            failSecond 0) = Rejected "unsupported") by reflexivity.
  split; [exact H|].
  exact (proj1 (proj2 (proj2 (proj2
           (rollingFilter_no_lookahead
              (manifest [period [avcBaseline]; period [avcMain]])
              [period [vp9]] failSecond 0)) _ H))).
Defined.

Lemma rollingFilter_adjacent_witness :
  neverAdds keepAll /\
  settlement (rollingFilter shrinking keepAll 0) = Resolved /\
  periods (after (rollingFilter shrinking keepAll 0)) !! 0%nat =
    Some (period [avcBaseline; vp9]) /\
  periods (after (rollingFilter shrinking keepAll 0)) !! 1%nat =
    Some (period [avcMain]) /\
  forall v, v ∈ variants (period [avcMain]) ->
    exists w, w ∈ variants (period [avcBaseline; vp9]) /\
      VariantCodecSummary.equals (VariantCodecSummary.constructor v)
                                 (VariantCodecSummary.constructor w) = true.
Proof.
  assert (H1 : neverAdds keepAll) by (intros p n v Hv; exact Hv).
  split; [exact H1|]. split; [reflexivity|]. split; [reflexivity|].
  split; [reflexivity|].
  apply (rollingFilter_adjacent shrinking keepAll 0 0 _ _ H1);
    [left; reflexivity|reflexivity|reflexivity].
Defined.

Lemma rollingFilter_after_common_witness :
  leavesAlone keepAll /\
  filterByCommonCodecs mixed = Normal sameBases /\
  settlement (rollingFilter sameBases keepAll 0) = Resolved /\
  after (rollingFilter sameBases keepAll 0) = sameBases.
Proof.
  assert (H1 : leavesAlone keepAll) by (intros p n; reflexivity).
  assert (H2 : filterByCommonCodecs mixed = Normal sameBases) by reflexivity.
  split; [exact H1|]. split; [exact H2|].
  exact (rollingFilter_after_common mixed sameBases keepAll 0 H1 H2).
Defined.

Lemma rollingFilter_keeps_common_witness :
  leavesAlone keepAll /\
  filterByCommonCodecs mixed = Normal sameBases /\
  periods sameBases !! 1%nat = Some (period [avcMain]) /\
  periods (after (rollingFilter mixed keepAll 0)) !! 1%nat = Some (period [avcMain]) /\
  forall v, v ∈ variants (period [avcMain]) -> v ∈ variants (period [avcMain]).
Proof.
  assert (H1 : leavesAlone keepAll) by (intros p n; reflexivity).
  assert (H2 : filterByCommonCodecs mixed = Normal sameBases) by reflexivity.
  split; [exact H1|]. split; [exact H2|]. split; [reflexivity|].
  split; [reflexivity|].
  apply (rollingFilter_keeps_common mixed sameBases keepAll 0 1 _ _ H1 H2);
    reflexivity.
Defined.

Lemma filterByMediaSourceSupport_keeps_witness :
  periods mixed !! 0%nat = Some (period [avcBaseline; vp9]) /\
  exists P',
    periods (filterByMediaSourceSupport mp4Only mixed) !! 0%nat = Some P' /\
    (forall v, v ∈ variants P' <->
       v ∈ variants (period [avcBaseline; vp9]) /\
       (forall s, audio v = Some s -> mp4Only s = true) /\
       (forall s, video v = Some s -> mp4Only s = true)) /\
    (forall v, v ∈ variants (period [avcBaseline; vp9]) ->
               audio v = None -> video v = None -> v ∈ variants P').
Proof.
  split; [reflexivity|].
  apply (filterByMediaSourceSupport_keeps mp4Only mixed 0). reflexivity.
Defined.

Lemma predicate_filters_narrow_witness :
  periods (manifest []) = [] /\
  filterByMediaSourceSupport mp4Only (manifest []) = manifest [].
Proof.
  split; [reflexivity|].
  apply (proj2 (proj2 (proj2
           (predicate_filters_narrow (fun _ (_ _ : unit) => true) mp4Only
              (fun (_ : unit) _ => true) (manifest []) tt tt tt)))).
  reflexivity.
Defined.

Lemma filterByCommonCodecs_monotone_witness :
  Forall2 narrowed (periods mixed) (periods (filterByMediaSourceSupport mp4Only mixed)) /\
  filterByCommonCodecs mixed = Normal sameBases /\
  filterByCommonCodecs (filterByMediaSourceSupport mp4Only mixed) = Normal sameBases /\
  Forall2 narrowed (periods sameBases) (periods sameBases).
Proof.
  assert (H1 : Forall2 narrowed (periods mixed)
                 (periods (filterByMediaSourceSupport mp4Only mixed))).
  { repeat constructor. }
  assert (H2 : filterByCommonCodecs mixed = Normal sameBases) by reflexivity.
  assert (H3 : filterByCommonCodecs (filterByMediaSourceSupport mp4Only mixed) =
               Normal sameBases) by reflexivity.
  split; [exact H1|]. split; [exact H2|]. split; [exact H3|].
  exact (filterByCommonCodecs_monotone mixed _ sameBases sameBases H1 H2 H3).
Defined.
End ExtraWitness.
